(** * pyserver: a shallow embedding of [server.py]

  The development follows the layout of the source file:

  - [Str]: the Python string operations the server relies on;
  - [PosixPath]: [os.path.join], [os.path.normpath], [os.path.abspath];
  - [PyInt]: [int(str)] as used on the [content-length] header;
  - [Eff]: a trace-and-exception monad for the effectful code;
  - [Server]: [serve_file], [HTTPWorker.handle_client], [HTTPWorker.run],
    [HTTPServer.__init__] and [HTTPServer.start], with a standard output
    that takes every log line;
  - [Logging]: the functions of [HTTPWorker] with a standard output on
    which [print] may raise;
  - the theorems about them. *)

From Stdlib Require Import String Ascii List ZArith Bool Lia.
Import ListNotations.
Local Open Scope string_scope.
Local Open Scope list_scope.

(* ===================================================================== *)
(** ** Python string operations *)
(* ===================================================================== *)

Module Str.

Definition slash : ascii := "/"%char.

(** [s.startswith(p)] *)
Definition startswith (s p : string) : bool := String.prefix p s.

(** [s.endswith("/")] *)
Fixpoint endswith_slash (s : string) : bool :=
  match s with
  | EmptyString => false
  | String c EmptyString => Ascii.eqb c slash
  | String _ r => endswith_slash r
  end.

(** [s.lstrip("/")] *)
Fixpoint lstrip_slash (s : string) : string :=
  match s with
  | EmptyString => EmptyString
  | String c r => if Ascii.eqb c slash then lstrip_slash r else s
  end.

(** [s.split("/")]: never the empty list; [""] splits into [[""]]. *)
Fixpoint split_slash (s : string) : list string :=
  match s with
  | EmptyString => [EmptyString]
  | String c r =>
      if Ascii.eqb c slash then EmptyString :: split_slash r
      else match split_slash r with
           | h :: t => String c h :: t
           | [] => [String c EmptyString]
           end
  end.

(** ["/".join(comps)] *)
Fixpoint join_slash (comps : list string) : string :=
  match comps with
  | [] => EmptyString
  | [c] => c
  | c :: rest => (c ++ String slash (join_slash rest))%string
  end.

(** [needle in hay] for two strings: substring containment. *)
Fixpoint contains (needle hay : string) : bool :=
  String.prefix needle hay
  || match hay with
     | EmptyString => false
     | String _ r => contains needle r
     end.

(** ["/" in s] *)
Fixpoint has_slash (s : string) : bool :=
  match s with
  | EmptyString => false
  | String c r => Ascii.eqb c slash || has_slash r
  end.

(** ASCII lower-casing of one character and of a string. *)
Definition lower_ascii (c : ascii) : ascii :=
  let n := nat_of_ascii c in
  if (65 <=? n)%nat && (n <=? 90)%nat then ascii_of_nat (n + 32) else c.

Fixpoint lower (s : string) : string :=
  match s with
  | EmptyString => EmptyString
  | String c r => String (lower_ascii c) (lower r)
  end.

End Str.

(* ===================================================================== *)
(** ** [posixpath] *)
(* ===================================================================== *)

Module PosixPath.
Import Str.

(** [os.path.join(a, b)] for one extra component. *)
Definition join (a b : string) : string :=
  if startswith b "/" then b
  else if String.eqb a "" || endswith_slash a then (a ++ b)%string
  else (a ++ "/" ++ b)%string.

(** The number of leading slashes [normpath] keeps: POSIX allows one or
    two, and three or more count as one. *)
Definition initial_slashes (path : string) : nat :=
  if startswith path "/" then
    if startswith path "//" && negb (startswith path "///") then 2 else 1
  else 0.

(** One round of the [for comp in comps] loop of [normpath]. *)
Definition norm_step (init : nat) (new_comps : list string) (comp : string)
  : list string :=
  if String.eqb comp "" || String.eqb comp "." then new_comps
  else if negb (String.eqb comp "..")
          || (Nat.eqb init 0 && match new_comps with [] => true | _ => false end)
          || match new_comps with
             | [] => false
             | _ => String.eqb (last new_comps "") ".."
             end
       then new_comps ++ [comp]
       else match new_comps with
            | [] => new_comps
            | _ => removelast new_comps
            end.

Definition norm_comps (init : nat) (comps : list string) : list string :=
  fold_left (norm_step init) comps [].

Fixpoint slashes (n : nat) : string :=
  match n with
  | O => EmptyString
  | S k => String slash (slashes k)
  end.

(** [os.path.normpath(path)] *)
Definition normpath (path : string) : string :=
  if String.eqb path "" then "."
  else
    let init := initial_slashes path in
    let comps := norm_comps init (split_slash path) in
    let path' := (slashes init ++ join_slash comps)%string in
    if String.eqb path' "" then "." else path'.

Definition isabs (path : string) : bool := startswith path "/".

(** A component of a normalised path: a name, not empty, not ["."], not
    [".."], and without a slash. *)
Definition clean (c : string) : bool :=
  negb (String.eqb c "") && negb (String.eqb c ".")
  && negb (String.eqb c "..") && negb (has_slash c).

(** [os.path.abspath(path)], with the working directory made explicit. *)
Definition abspath (cwd path : string) : string :=
  normpath (if isabs path then path else join cwd path).

End PosixPath.


(* ===================================================================== *)
(** ** [int(str)] *)
(* ===================================================================== *)

(** [int(s)] on a [str] in base 10, as CPython 3.6 (the interpreter the
    script names) parses it: surrounding white space is skipped, one sign
    is allowed, and the digits may be separated by single underscores.
    [None] stands for [ValueError].  The strings of this development are
    ASCII strings: on them the white space of [int] is the characters 9
    to 13 and 32, and the digits are ["0"] to ["9"]. *)
Module PyInt.

Definition is_space (c : ascii) : bool :=
  let n := nat_of_ascii c in
  ((9 <=? n)%nat && (n <=? 13)%nat) || (n =? 32)%nat.

Fixpoint lstrip_space (s : string) : string :=
  match s with
  | EmptyString => EmptyString
  | String c r => if is_space c then lstrip_space r else s
  end.

Fixpoint rstrip_space (s : string) : string :=
  match s with
  | EmptyString => EmptyString
  | String c r =>
      match rstrip_space r with
      | EmptyString => if is_space c then EmptyString else String c EmptyString
      | r' => String c r'
      end
  end.

Definition digit_value (c : ascii) : option Z :=
  let n := nat_of_ascii c in
  if (48 <=? n)%nat && (n <=? 57)%nat then Some (Z.of_nat (n - 48)) else None.

Definition underscore : ascii := "_"%char.

(** The digit scan: [prev_us] tells that the previous character was an
    underscore; two in a row, or one at the end, are refused. *)
Fixpoint digits (acc : Z) (prev_us : bool) (s : string) : option Z :=
  match s with
  | EmptyString => if prev_us then None else Some acc
  | String c r =>
      if Ascii.eqb c underscore then
        if prev_us then None else digits acc true r
      else match digit_value c with
           | Some d => digits (10 * acc + d) false r
           | None => None
           end
  end.

Definition int (s : string) : option Z :=
  let t := rstrip_space (lstrip_space s) in
  let '(neg, body) :=
    match t with
    | String "-"%char r => (true, r)
    | String "+"%char r => (false, r)
    | _ => (false, t)
    end in
  match body with
  | EmptyString => None
  | String c _ =>
      if Ascii.eqb c underscore then None
      else match digits 0 false body with
           | Some n => Some (if neg then (- n)%Z else n)
           | None => None
           end
  end.

End PyInt.

(* ===================================================================== *)
(** ** Effects: exceptions and traces *)
(* ===================================================================== *)

Module Eff.

(** The exceptions the collaborators and the operating system raise; all
    of them are subclasses of Python's [Exception]. *)
Inductive exn : Type :=
| FileNotFoundError
| PermissionError
| IsADirectoryError
| NotADirectoryError
| ConnectionResetError
| BrokenPipeError
| ValueError
| OtherException (name : string).

Definition is_FileNotFoundError (e : exn) : bool :=
  match e with
  | FileNotFoundError => true
  | _ => false
  end.

Inductive result (A : Type) : Type :=
| Ok (a : A)
| Raise (e : exn).
Arguments Ok {A} a.
Arguments Raise {A} e.

(** A computation is the list of effects it performed, in order, and its
    outcome. *)
Definition M (E A : Type) : Type := (list E * result A)%type.

Definition ret {E A} (a : A) : M E A := ([], Ok a).

Definition raise {E A} (e : exn) : M E A := ([], Raise e).

Definition emit {E} (ev : E) : M E unit := ([ev], Ok tt).

Definition bind {E A B} (c : M E A) (k : A -> M E B) : M E B :=
  match c with
  | (t, Ok a) => let '(t', r) := k a in (t ++ t', r)
  | (t, Raise e) => (t, Raise e)
  end.

(** [try: body / except <class> as e: handler e], where [catches] tells
    which exceptions the clause names. *)
Definition try_except {E A} (body : M E A) (catches : exn -> bool)
    (handler : exn -> M E A) : M E A :=
  match body with
  | (t, Raise e) =>
      if catches e then let '(t', r) := handler e in (t ++ t', r)
      else (t, Raise e)
  | ok => ok
  end.

(** [try: body / finally: cleanup], and the exit of a [with] block: the
    clean-up runs on every way out of [body] and does not change the
    outcome. *)
Definition finally {E A} (body : M E A) (cleanup : list E) : M E A :=
  let '(t, r) := body in (t ++ cleanup, r).

Definition events {E A} (c : M E A) : list E := fst c.
Definition outcome {E A} (c : M E A) : result A := snd c.

End Eff.

Declare Scope eff_scope.
Delimit Scope eff_scope with eff.
Notation "x <- c1 ;; c2" := (Eff.bind c1 (fun x => c2))
  (at level 61, c1 at next level, right associativity) : eff_scope.
Notation "c1 ;; c2" := (Eff.bind c1 (fun _ => c2))
  (at level 61, right associativity) : eff_scope.

(* ===================================================================== *)
(** ** The server *)
(* ===================================================================== *)

Module Server.
Import Str PosixPath Eff.
Local Open Scope eff_scope.

(** *** Data *)

(** A socket is known by its descriptor; a peer address is [(host, port)]. *)
Definition socket : Type := nat.
Definition address : Type := (string * Z)%type.
Definition connection : Type := (socket * address)%type.

(** The object [open(abspath, "rb")] returns. *)
Record file : Type := { file_name : string; file_content : string }.

(** Modelled from the spec: the Request collaborator ([request.py] is not
    part of the sources).  A request has a method, a path, a header
    mapping and a lazily read body stream; [body n] is what
    [req.body.read(n)] does. *)
Record request : Type := {
  method : string;
  path : string;
  headers : list (string * string);
  body : Z -> result string
}.

(** Modelled from the spec: the header mapping has case-insensitive keys
    and the first match wins; [headers_get h name default] is
    [h.get(name, default)]. *)
Fixpoint headers_get (h : list (string * string)) (name default : string)
  : string :=
  match h with
  | [] => default
  | (k, v) :: rest =>
      if String.eqb (lower k) (lower name) then v
      else headers_get rest name default
  end.

(** Modelled from the spec: the Response collaborator ([response.py] is not
    part of the sources) is used through its two constructors,
    [Response.from_status_code(code)] and
    [Response(status=..., body=f)] followed by [headers.add]. *)
Inductive response : Type :=
| from_status_code (code : Z)
| Response (status : string) (added_headers : list (string * string))
    (body : file).

Inductive message : Type :=
| MsgListening (host : string) (port : Z)
| MsgNewConnection (addr : address)
| MsgRequestBody (data : string)
| MsgFailedToParse (e : exn)
| MsgUnhandledError (e : exn).

(** The effects of the server, as an observer of the process sees them.
    [EvOpen p ok] is a call of [open(p, "rb")], and [ok] tells whether it
    returned a file object. *)
Inductive event : Type :=
| EvPrint (m : message)
| EvParse (sock : socket)
| EvSend (sock : socket) (res : response)
| EvBodyRead (n : Z)
| EvOpen (p : string) (ok : bool)
| EvCloseFile (p : string)
| EvCloseSock (sock : socket)
| EvTaskDone.

(** What the server does not decide itself: the working directory, the
    bytes a client sends (through [Request.from_socket]), whether a write
    to a socket succeeds, the file system and [mimetypes.guess_type]. *)
Record world : Type := {
  getcwd : string;
  Request_from_socket : socket -> result request;
  Response_send : response -> socket -> option exn;
  open_rb : string -> result string;
  guess_type : string -> option string * option string
}.

(** [print(...)] on a standard output that takes the line.  The functions
    of this module are the server with such an output; [print] on any
    standard output, where it may raise, and the server with it are in
    the module [Logging]. *)
Definition print (m : message) : M event unit := emit (EvPrint m).

(** How [res.send(sock)] ends. *)
Definition send_result (w : world) (sock : socket) (res : response)
  : result unit :=
  match Response_send w res sock with
  | None => Ok tt
  | Some e => Raise e
  end.

(** [res.send(sock)] *)
Definition send (w : world) (res : response) (sock : socket)
  : M event unit :=
  ([EvSend sock res], send_result w sock res).

(** [Request.from_socket(sock)] *)
Definition from_socket (w : world) (sock : socket) : M event request :=
  ([EvParse sock], Request_from_socket w sock).

(** [req.body.read(n)] *)
Definition body_read (req : request) (n : Z) : M event string :=
  ([EvBodyRead n], body req n).

(** [with open(p, "rb") as f: block f] *)
Definition with_open {A} (w : world) (p : string) (block : file -> M event A)
  : M event A :=
  match open_rb w p with
  | Raise e => ([EvOpen p false], Raise e)
  | Ok data =>
      emit (EvOpen p true) ;;
      finally (block {| file_name := p; file_content := data |})
              [EvCloseFile p]
  end.

(** *** [serve_file] *)

Definition root_path_of (w : world) (root : string) : string :=
  abspath (getcwd w) root.

(** The path [serve_file] opens: the rewrite of ["/"], the join with the
    root and the normalisation. *)
Definition candidate (w : world) (path root : string) : string :=
  let path := if String.eqb path "/" then "/index.html" else path in
  normpath (join (root_path_of w root) (lstrip_slash path)).

Definition content_type_of (w : world) (abspath : string) : string :=
  let '(content_type, encoding) := guess_type w abspath in
  let content_type :=
    match content_type with
    | None => "application/octet-stream"
    | Some t => t
    end in
  match encoding with
  | Some enc => (content_type ++ "; charset=" ++ enc)%string
  | None => content_type
  end.

Definition serve_file (w : world) (sock : socket) (path root : string)
  : M event unit :=
  let root_path := root_path_of w root in
  let abspath := candidate w path root in
  if negb (startswith abspath root_path) then
    send w (from_status_code 404) sock
  else
    try_except
      (with_open w abspath (fun f =>
         let content_type := content_type_of w abspath in
         let res := Response "200 OK" [("content-type", content_type)] f in
         send w res sock))
      is_FileNotFoundError
      (fun _ => send w (from_status_code 404) sock).

(** *** [HTTPWorker] *)

(** [int(req.headers.get("content-length", "0"))], with [ValueError]
    turned into 0. *)
Definition content_len (req : request) : Z :=
  match PyInt.int (headers_get (headers req) "content-length" "0") with
  | Some n => n
  | None => 0%Z
  end.

Definition expects_continue (req : request) : bool :=
  contains "100-continue" (headers_get (headers req) "expect" "").

(** The [try] block after the request was parsed, statement by statement:
    the interim response, ... *)
Definition interim (w : world) (client_sock : socket) (req : request)
  : M event unit :=
  if expects_continue req
  then send w (from_status_code 100) client_sock
  else ret tt.

(** ... the body, ... *)
Definition drain_body (req : request) : M event unit :=
  let content_len := content_len req in
  if negb (Z.eqb content_len 0)
  then data <- body_read req content_len ;; print (MsgRequestBody data)
  else ret tt.

(** ... and the answer. *)
Definition respond (w : world) (client_sock : socket) (req : request)
  : M event unit :=
  if negb (String.eqb (method req) "GET")
  then send w (from_status_code 405) client_sock
  else serve_file w client_sock (path req) "www".

Definition handle_request (w : world) (client_sock : socket) (req : request)
  : M event unit :=
  interim w client_sock req ;;
  drain_body req ;;
  respond w client_sock req.

(** The whole [try] block of [handle_client]. *)
Definition try_block (w : world) (client_sock : socket) : M event unit :=
  req <- from_socket w client_sock ;;
  handle_request w client_sock req.

(** The body of [except Exception as e]. *)
Definition on_error (w : world) (client_sock : socket) (e : exn)
  : M event unit :=
  print (MsgFailedToParse e) ;;
  send w (from_status_code 404) client_sock.

Definition handle_client (w : world) (client_sock : socket)
    (client_addr : address) : M event unit :=
  print (MsgNewConnection client_addr) ;;
  finally
    (try_except
       (try_block w client_sock)
       (fun _ => true)
       (on_error w client_sock))
    [EvCloseSock client_sock].

Record HTTPWorker : Type := { running : bool }.

(** [HTTPWorker.__init__] *)
Definition HTTPWorker_init : HTTPWorker := {| running := true |}.

(** [HTTPWorker.stop] *)
Definition stop (self : HTTPWorker) : HTTPWorker := {| running := false |}.

(** One turn of the loop of [run] as the rest of the process shapes it:
    what [connection_queue.get(timeout=1)] gave ([None] is [Empty]) and
    whether another thread called [stop] before the next test of the
    flag. *)
Inductive tick : Type :=
| Tick (got : option connection) (stop_called : bool).

(** The body of the [while] loop. *)
Definition iteration (w : world) (got : option connection) : M event unit :=
  match got with
  | None => ret tt
  | Some (client_sock, client_addr) =>
      finally
        (try_except
           (handle_client w client_sock client_addr)
           (fun _ => true)
           (fun e => print (MsgUnhandledError e)))
        [EvTaskDone]
  end.

(** How the thread stands when the schedule ends: it left [run], it is
    still in the loop, or an exception ended it. *)
Inductive run_outcome : Type :=
| Returned
| Looping
| Died (e : exn).

Fixpoint run_loop (w : world) (self : HTTPWorker) (sched : list tick)
  : list event * run_outcome :=
  if running self then
    match sched with
    | [] => ([], Looping)
    | Tick got stop_called :: rest =>
        match iteration w got with
        | (t, Raise e) => (t, Died e)
        | (t, Ok _) =>
            let '(t', o) :=
              run_loop w (if stop_called then stop self else self) rest in
            (t ++ t', o)
        end
    end
  else ([], Returned).

(** [HTTPWorker.run] *)
Definition run (w : world) (self : HTTPWorker) (sched : list tick)
  : list event * run_outcome :=
  let self := {| running := true |} in
  run_loop w self sched.

(** A schedule in which no other thread calls [stop]. *)
Definition never_stopped (sched : list tick) : Prop :=
  Forall (fun tk => match tk with Tick _ stop_called => stop_called = false end)
         sched.

(** *** [queue.Queue] and [HTTPServer] *)

(** [queue.Queue(maxsize)]: a FIFO; a [maxsize] of 0 or less means no
    bound. *)
Record Queue : Type := {
  maxsize : Z;
  queue : list connection;
  unfinished_tasks : Z
}.

Definition Queue_init (maxsize : Z) : Queue :=
  {| maxsize := maxsize; queue := []; unfinished_tasks := 0 |}.

Definition qsize (q : Queue) : Z := Z.of_nat (length (queue q)).

Definition full (q : Queue) : bool :=
  (0 <? maxsize q)%Z && (maxsize q <=? qsize q)%Z.

(** [q.put(item)]: [None] when the call has to wait for a free slot. *)
Definition put (q : Queue) (item : connection) : option Queue :=
  if full q then None
  else Some {| maxsize := maxsize q;
               queue := queue q ++ [item];
               unfinished_tasks := unfinished_tasks q + 1 |}.

(** [q.get(timeout=1)]: [None] is [Empty]. *)
Definition get (q : Queue) : option (connection * Queue) :=
  match queue q with
  | [] => None
  | item :: rest =>
      Some (item, {| maxsize := maxsize q;
                     queue := rest;
                     unfinished_tasks := unfinished_tasks q |})
  end.

Record HTTPServer : Type := {
  host : string;
  port : Z;
  worker_count : Z;
  worker_backlog : Z;
  connection_queue : Queue
}.

(** [HTTPServer.__init__] *)
Definition HTTPServer_init (host : string) (port worker_count : Z)
  : HTTPServer :=
  let worker_backlog := (worker_count * 8)%Z in
  {| host := host;
     port := port;
     worker_count := worker_count;
     worker_backlog := worker_backlog;
     connection_queue := Queue_init worker_backlog |}.

(** The accept loop of [HTTPServer.start] next to the workers' [get]s.
    [pending] is the connection [accept()] returned and [put] has not
    stored yet; [accepted] and [delivered] record, in order, what
    [accept()] returned and what the workers took out. *)
Record accept_state : Type := {
  server : HTTPServer;
  pending : option connection;
  serving : bool;
  accepted : list connection;
  delivered : list connection
}.

Inductive action : Type :=
| Accept (c : connection)    (* [server_sock.accept()] returns [c] *)
| Put                        (* [connection_queue.put] tries to store *)
| WorkerGet                  (* a worker's [get] *)
| Interrupt.                 (* [KeyboardInterrupt] *)

Definition with_queue (srv : HTTPServer) (q : Queue) : HTTPServer :=
  {| host := host srv; port := port srv; worker_count := worker_count srv;
     worker_backlog := worker_backlog srv; connection_queue := q |}.

Definition start_state (srv : HTTPServer) : accept_state :=
  {| server := srv; pending := None; serving := true;
     accepted := []; delivered := [] |}.

Definition step (s : accept_state) (a : action) : accept_state :=
  match a with
  | Accept c =>
      match serving s, pending s with
      | true, None =>
          {| server := server s; pending := Some c; serving := true;
             accepted := accepted s ++ [c]; delivered := delivered s |}
      | _, _ => s
      end
  | Put =>
      match serving s, pending s with
      | true, Some c =>
          match put (connection_queue (server s)) c with
          | Some q =>
              {| server := with_queue (server s) q; pending := None;
                 serving := true;
                 accepted := accepted s; delivered := delivered s |}
          | None => s
          end
      | _, _ => s
      end
  | WorkerGet =>
      match get (connection_queue (server s)) with
      | Some (c, q) =>
          {| server := with_queue (server s) q; pending := pending s;
             serving := serving s;
             accepted := accepted s; delivered := delivered s ++ [c] |}
      | None => s
      end
  | Interrupt =>
      {| server := server s; pending := None; serving := false;
         accepted := accepted s; delivered := delivered s |}
  end.

Definition steps (s : accept_state) (acts : list action) : accept_state :=
  fold_left step acts s.

(** The connection the accept loop holds while [put] waits. *)
Definition waiting (s : accept_state) : list connection :=
  match pending s with
  | Some c => [c]
  | None => []
  end.

(** The connections accepted and not yet handed to a worker, oldest
    first. *)
Definition in_flight (s : accept_state) : list connection :=
  queue (connection_queue (server s)) ++ waiting s.

(** *** Reading traces *)

(** The files a trace leaves open: every successful [open] not followed by
    its [close]. *)
Fixpoint open_files (t : list event) (opened : list string) : list string :=
  match t with
  | [] => opened
  | EvOpen p true :: rest => open_files rest (p :: opened)
  | EvCloseFile p :: rest =>
      open_files rest (remove string_dec p opened)
  | _ :: rest => open_files rest opened
  end.

Definition is_file_access (ev : event) : bool :=
  match ev with
  | EvOpen _ _ => true
  | EvCloseFile _ => true
  | _ => false
  end.

Definition is_send (ev : event) : bool :=
  match ev with
  | EvSend _ _ => true
  | _ => false
  end.

Definition is_close_sock (ev : event) : bool :=
  match ev with
  | EvCloseSock _ => true
  | _ => false
  end.

(** A response with status 100, and any other response. *)
Definition is_interim (ev : event) : bool :=
  match ev with
  | EvSend _ (from_status_code code) => Z.eqb code 100
  | _ => false
  end.

Definition is_final (ev : event) : bool := is_send ev && negb (is_interim ev).

(** No event of the trace satisfies [p]. *)
Definition none (p : event -> bool) (t : list event) : bool :=
  forallb (fun ev => negb (p ev)) t.

(** The components of a normalised absolute path, and containment of one
    path in the directory tree under another. *)
Definition components (p : string) : list string :=
  filter (fun c => negb (String.eqb c "")) (split_slash p).

Fixpoint list_prefix (l1 l2 : list string) : bool :=
  match l1, l2 with
  | [], _ => true
  | a :: r1, b :: r2 => String.eqb a b && list_prefix r1 r2
  | _ :: _, [] => false
  end.

Definition inside (root_path p : string) : bool :=
  list_prefix (components root_path) (components p).

(** What every state of the accept loop satisfies, for a queue of
    capacity [cap]. *)
Record invariant (cap : Z) (s : accept_state) : Prop := {
  inv_maxsize : maxsize (connection_queue (server s)) = cap;
  inv_bounded : (qsize (connection_queue (server s)) <= cap)%Z;
  inv_nothing_lost :
    serving s = true -> accepted s = (delivered s ++ in_flight s)%list
}.

(** *** Further readings of traces and paths *)

(** How far a path can be from a root whose path is a prefix of its own, as
    strings: component by component the same, up to the last component of
    the root, which only has to begin the component facing it. *)
Fixpoint confined (root_comps path_comps : list string) : bool :=
  match root_comps, path_comps with
  | [], _ => true
  | [b], b' :: _ => String.prefix b b'
  | a :: r1, a' :: r2 => String.eqb a a' && confined r1 r2
  | _ :: _, [] => false
  end.

(** The number of events of a trace that satisfy [p]. *)
Definition count (p : event -> bool) (t : list event) : nat :=
  length (filter p t).

Definition is_open (ev : event) : bool :=
  match ev with
  | EvOpen _ _ => true
  | _ => false
  end.

Definition is_body_read (ev : event) : bool :=
  match ev with
  | EvBodyRead _ => true
  | _ => false
  end.

Definition is_task_done (ev : event) : bool :=
  match ev with
  | EvTaskDone => true
  | _ => false
  end.

(** The events the handling of the connection on [sock] may show: nothing
    on another socket, and no [task_done]. *)
Definition of_connection (sock : socket) (ev : event) : bool :=
  match ev with
  | EvParse s => Nat.eqb s sock
  | EvSend s _ => Nat.eqb s sock
  | EvCloseSock s => Nat.eqb s sock
  | EvTaskDone => false
  | _ => true
  end.

(** The events of the steps between the parse and the close: reads of
    the body and calls on files. *)
Definition of_inner (ev : event) : bool :=
  match ev with
  | EvBodyRead _ => true
  | EvOpen _ _ => true
  | EvCloseFile _ => true
  | _ => false
  end.

(** The sockets a trace closes, in order. *)
Fixpoint closed_sockets (t : list event) : list socket :=
  match t with
  | [] => []
  | EvCloseSock s :: rest => s :: closed_sockets rest
  | _ :: rest => closed_sockets rest
  end.

(** The connections a worker takes from the queue under a schedule: those
    of the turns up to the first one in which [stop] is called. *)
Fixpoint served (sched : list tick) : list connection :=
  match sched with
  | [] => []
  | Tick got stop_called :: rest =>
      match got with
      | Some c => [c]
      | None => []
      end ++ (if stop_called then [] else served rest)
  end.

(** *** [HTTPServer.start] *)

(** The effects of [start] on the threads and on the listening socket. *)
Inductive server_event : Type :=
| SvWorkerStart (i : nat)
| SvSocket
| SvSetReuseAddr
| SvBind (host : string) (port : Z)
| SvListen (backlog : Z)
| SvPrint (m : message)
| SvAccept (c : connection)
| SvPut (c : connection) (stored : bool)
| SvCloseListener
| SvWorkerStop (i : nat)
| SvWorkerJoin (i : nat) (timeout : Z).

(** What one call of [server_sock.accept()] and the [put] after it meet:
    a connection, stored unless the interrupt comes while [put] waits;
    the interrupt during [accept]; or an error of [accept]. *)
Inductive arrival : Type :=
| Arrived (c : connection) (interrupted_in_put : bool)
| KeyboardInterrupt
| AcceptError (e : exn).

(** The network as [start] meets it: how the calls that set up the
    listening socket end, and what arrives.  Threads are taken to start. *)
Record network : Type := {
  socket_result : option exn;
  setsockopt_result : option exn;
  bind_result : option exn;
  listen_result : option exn;
  arrivals : list arrival
}.

(** A call that has no result but may raise. *)
Definition call {E} (ev : E) (r : option exn) : M E unit :=
  ([ev], match r with
         | None => Ok tt
         | Some e => Raise e
         end).

(** How the [while True] loop stands when the arrivals end: left through
    [break], or waiting in [accept]. *)
Inductive loop_end : Type :=
| Broken
| Accepting.

Fixpoint accept_loop (arr : list arrival) : M server_event loop_end :=
  match arr with
  | [] => ([], Ok Accepting)
  | Arrived c false :: rest =>
      let '(t, r) := accept_loop rest in
      (SvAccept c :: SvPut c true :: t, r)
  | Arrived c true :: _ => ([SvAccept c; SvPut c false], Ok Broken)
  | KeyboardInterrupt :: _ => ([], Ok Broken)
  | AcceptError e :: _ => ([], Raise e)
  end.

(** The body of [with socket.socket() as server_sock]. *)
Definition listen_and_accept (net : network) (self : HTTPServer)
  : M server_event loop_end :=
  call SvSetReuseAddr (setsockopt_result net) ;;
  call (SvBind (host self) (port self)) (bind_result net) ;;
  call (SvListen 0) (listen_result net) ;;
  emit (SvPrint (MsgListening (host self) (port self))) ;;
  accept_loop (arrivals net).

(** How [start] stands at the end of the arrivals: returned, or still in
    its accept loop. *)
Inductive start_end : Type :=
| ShutDown
| Serving.

(** The workers of [start], by their rank in the list [workers]. *)
Definition workers_of (self : HTTPServer) : list nat :=
  seq 0 (Z.to_nat (worker_count self)).

Definition start (net : network) (self : HTTPServer)
  : M server_event start_end :=
  let workers := workers_of self in
  (map SvWorkerStart workers, Ok tt) ;;
  call SvSocket (socket_result net) ;;
  match listen_and_accept net self with
  | (t, Ok Accepting) => (t, Ok Serving)
  | (t, Ok Broken) =>
      (t ++ [SvCloseListener]
         ++ map SvWorkerStop workers
         ++ map (fun i => SvWorkerJoin i 30) workers,
       Ok ShutDown)
  | (t, Raise e) => (t ++ [SvCloseListener], Raise e)
  end.

Definition is_worker_start (ev : server_event) : bool :=
  match ev with
  | SvWorkerStart _ => true
  | _ => false
  end.

Definition is_shutdown (ev : server_event) : bool :=
  match ev with
  | SvWorkerStop _ => true
  | SvWorkerJoin _ _ => true
  | _ => false
  end.

Definition is_worker_event (ev : server_event) : bool :=
  is_worker_start ev || is_shutdown ev.

(** *** Further readings of the accept loop *)

(** The accepted connections are the delivered ones and the ones in
    flight, in order, and at most one more, lost to the interrupt. *)
Definition in_order (s : accept_state) : Prop :=
  exists lost,
    length lost <= 1
    /\ accepted s = delivered s ++ in_flight s ++ lost
    /\ (serving s = true -> lost = [])
    /\ (serving s = false -> pending s = None).

End Server.

(* ===================================================================== *)
(** ** The server with a standard output that may fail *)
(* ===================================================================== *)

(** [print] writes to the standard output of the process and raises when
    the line cannot be written (a closed pipe, a full disk, a character
    the output cannot encode).  Here are the functions of [HTTPWorker]
    with the standard output as one more thing the server does not
    decide; [serve_file] and the steps that do not print are those of
    [Server]. *)
Module Logging.
Import Str PosixPath Eff Server.
Local Open Scope eff_scope.

(** How the [print] of a line ends: [None] when it is written. *)
Definition stdout : Type := message -> option exn.

(** [print(...)] *)
Definition print (out : stdout) (m : message) : M event unit :=
  call (EvPrint m) (out m).

Definition drain_body (out : stdout) (req : request) : M event unit :=
  let content_len := content_len req in
  if negb (Z.eqb content_len 0)
  then data <- body_read req content_len ;; print out (MsgRequestBody data)
  else ret tt.

Definition handle_request (out : stdout) (w : world) (client_sock : socket)
    (req : request) : M event unit :=
  interim w client_sock req ;;
  drain_body out req ;;
  respond w client_sock req.

(** The whole [try] block of [handle_client]. *)
Definition try_block (out : stdout) (w : world) (client_sock : socket)
  : M event unit :=
  req <- from_socket w client_sock ;;
  handle_request out w client_sock req.

(** The body of [except Exception as e]. *)
Definition on_error (out : stdout) (w : world) (client_sock : socket)
    (e : exn) : M event unit :=
  print out (MsgFailedToParse e) ;;
  send w (from_status_code 404) client_sock.

Definition handle_client (out : stdout) (w : world) (client_sock : socket)
    (client_addr : address) : M event unit :=
  print out (MsgNewConnection client_addr) ;;
  finally
    (try_except
       (try_block out w client_sock)
       (fun _ => true)
       (on_error out w client_sock))
    [EvCloseSock client_sock].

(** The body of the [while] loop of [run]. *)
Definition iteration (out : stdout) (w : world) (got : option connection)
  : M event unit :=
  match got with
  | None => ret tt
  | Some (client_sock, client_addr) =>
      finally
        (try_except
           (handle_client out w client_sock client_addr)
           (fun _ => true)
           (fun e => print out (MsgUnhandledError e)))
        [EvTaskDone]
  end.

Fixpoint run_loop (out : stdout) (w : world) (self : HTTPWorker)
    (sched : list tick) : list event * run_outcome :=
  if running self then
    match sched with
    | [] => ([], Looping)
    | Tick got stop_called :: rest =>
        match iteration out w got with
        | (t, Raise e) => (t, Died e)
        | (t, Ok _) =>
            let '(t', o) :=
              run_loop out w (if stop_called then stop self else self) rest in
            (t ++ t', o)
        end
    end
  else ([], Returned).

(** [HTTPWorker.run] *)
Definition run (out : stdout) (w : world) (self : HTTPWorker)
    (sched : list tick) : list event * run_outcome :=
  let self := {| running := true |} in
  run_loop out w self sched.

(** A standard output that takes every line. *)
Definition writable (out : stdout) : Prop := forall m, out m = None.

End Logging.

(* ===================================================================== *)
(** ** A concrete site *)
(* ===================================================================== *)

(** A small document root under [/srv/www], with a directory of the same
    name prefix next to it, and a handful of clients. *)
Module Site.
Import Eff Server.

Definition files (p : string) : result string :=
  if String.eqb p "/srv/www/index.html" then Ok "<h1>It works</h1>"
  else if String.eqb p "/srv/www" then Raise IsADirectoryError
  else if String.eqb p "/srv/www/locked.txt" then Raise PermissionError
  else if String.eqb p "/srv/www-private/key.pem" then Ok "SECRET"
  else Raise FileNotFoundError.

Definition guess (p : string) : option string * option string :=
  if String.eqb p "/srv/www/index.html" then (Some "text/html", None)
  else (None, None).

Definition no_body (n : Z) : result string := Ok "".

Definition get_request (p : string) (h : list (string * string)) : request :=
  {| method := "GET"; path := p; headers := h; body := no_body |}.

Definition post_request (p : string) (h : list (string * string)) : request :=
  {| method := "POST"; path := p; headers := h;
     body := fun _ => Ok "0123456789" |}.

(** What each client sends, by socket. *)
Definition clients (sock : socket) : result request :=
  match sock with
  | 0 => Ok (get_request "/" [])
  | 1 => Ok (get_request "" [])
  | 2 => Ok (post_request "/index.html" [("Content-Length", "-5")])
  | 3 => Ok (post_request "/index.html" [("Content-Length", "10")])
  | 4 => Ok (get_request "/" [("Expect", "100-continue")])
  | 5 => Ok (get_request "/locked.txt" [])
  | 6 => Ok (get_request "/../www-private/key.pem" [])
  | _ => Raise (OtherException "malformed request line")
  end.

Definition site : world :=
  {| getcwd := "/srv";
     Request_from_socket := clients;
     Response_send := fun _ _ => None;
     open_rb := files;
     guess_type := guess |}.

(** The same site behind a connection that is gone: every write fails. *)
Definition site_hung_up : world :=
  {| getcwd := "/srv";
     Request_from_socket := clients;
     Response_send := fun _ _ => Some BrokenPipeError;
     open_rb := files;
     guess_type := guess |}.

Definition peer : address := ("127.0.0.1", 50000%Z).

(** The server as [__main__] builds it. *)
Definition default_server : HTTPServer :=
  HTTPServer_init "127.0.0.1" 8080 16.

(** Two clients, then the interrupt. *)
Definition short_day : network :=
  {| socket_result := None;
     setsockopt_result := None;
     bind_result := None;
     listen_result := None;
     arrivals := [Arrived (0, peer) false; Arrived (3, peer) false;
                  KeyboardInterrupt] |}.



(** Three standard outputs: a terminal, a pipe whose reader is gone, and
    an output that cannot encode what a failed parse reports. *)
Definition terminal : Logging.stdout := fun _ => None.

Definition closed_pipe : Logging.stdout := fun _ => Some BrokenPipeError.

Definition ascii_output : Logging.stdout :=
  fun m =>
    match m with
    | MsgFailedToParse _ => Some (OtherException "UnicodeEncodeError")
    | _ => None
    end.

(** A server with one worker, and nine clients of it. *)
Definition small_server : HTTPServer := HTTPServer_init "127.0.0.1" 8080 1.

Definition client (n : nat) : connection := (n, peer).

(** Eight clients accepted and stored, a ninth accepted, two tries of
    [put], and the interrupt. *)
Definition rush : list action :=
  flat_map (fun n => [Accept (client n); Put]) (seq 1 8)
  ++ [Accept (client 9); Put; Put; Interrupt].

(** The port is taken. *)
Definition port_in_use : network :=
  {| socket_result := None;
     setsockopt_result := None;
     bind_result := Some (OtherException "Address already in use");
     listen_result := None;
     arrivals := [] |}.

End Site.

(* ===================================================================== *)
(** ** Runs on the concrete site *)
(* ===================================================================== *)

Module SiteRuns.
Import Str PosixPath Eff Server Site.

Example normpath_dotdot :
  normpath "/srv/www/../../etc/passwd" = "/etc/passwd".
Proof. reflexivity. Qed.

Example normpath_above_root : normpath "/../../x" = "/x".
Proof. reflexivity. Qed.

Example normpath_relative : normpath "a/./b//../../../c" = "../c".
Proof. reflexivity. Qed.

Example normpath_two_slashes : normpath "//a/" = "//a".
Proof. reflexivity. Qed.

Example normpath_three_slashes : normpath "///a/" = "/a".
Proof. reflexivity. Qed.

Example abspath_www : abspath "/srv" "www" = "/srv/www".
Proof. reflexivity. Qed.

Example join_empty : join "/srv/www" "" = "/srv/www/".
Proof. reflexivity. Qed.

Example int_plain : PyInt.int "  42 " = Some 42%Z.
Proof. reflexivity. Qed.

Example int_negative : PyInt.int "-5" = Some (-5)%Z.
Proof. reflexivity. Qed.

Example int_underscore : PyInt.int "1_000" = Some 1000%Z.
Proof. reflexivity. Qed.

Example normpath_corner_cases :
  map normpath [""; "/"; "//"; "///"; "/srv/www/"; "."; "a/.."]
  = ["."; "/"; "//"; "/"; "/srv/www"; "."; "."].
Proof. reflexivity. Qed.

Example join_cases :
  [join "" "www"; join "/srv/" "www"; join "/srv" "/x"]
  = ["www"; "/srv/www"; "/x"].
Proof. reflexivity. Qed.

Example int_good :
  map PyInt.int ["+5"; "007"; String (ascii_of_nat 11) "5";
                 String (ascii_of_nat 12) (String "5" (String (ascii_of_nat 13) ""))]
  = [Some 5%Z; Some 7%Z; Some 5%Z; Some 5%Z].
Proof. reflexivity. Qed.

Example int_bad_space :
  PyInt.int (String (ascii_of_nat 28) "5") = None.
Proof. reflexivity. Qed.

Example int_bad :
  map PyInt.int [""; "  "; "abc"; "1__0"; "_1"; "1_"; "- 5"; "+-5"; "-_5";
                 "1 2"; "+"; "0x10"]
  = [None; None; None; None; None; None; None; None; None; None; None; None].
Proof. reflexivity. Qed.

Example get_root_page :
  handle_client site 0 peer =
  ([EvPrint (MsgNewConnection peer); EvParse 0;
    EvOpen "/srv/www/index.html" true;
    EvSend 0 (Response "200 OK" [("content-type", "text/html")]
                {| file_name := "/srv/www/index.html";
                   file_content := "<h1>It works</h1>" |});
    EvCloseFile "/srv/www/index.html";
    EvCloseSock 0], Ok tt).
Proof. reflexivity. Qed.

Example get_etc_passwd :
  serve_file site 9 "/../../etc/passwd" "www"
  = ([EvSend 9 (from_status_code 404)], Ok tt).
Proof. reflexivity. Qed.

Example get_missing :
  serve_file site 9 "/missing.txt" "www"
  = ([EvOpen "/srv/www/missing.txt" false; EvSend 9 (from_status_code 404)],
     Ok tt).
Proof. reflexivity. Qed.

(** A client that sent garbage and hung up: neither the 404 nor anything
    else can be written, and the worker serves the next connection. *)
Example worker_after_hang_up :
  run site_hung_up HTTPWorker_init
      [Tick (Some (9, peer)) false; Tick None false; Tick (Some (2, peer)) true]
  = ([EvPrint (MsgNewConnection peer); EvParse 9;
      EvPrint (MsgFailedToParse (OtherException "malformed request line"));
      EvSend 9 (from_status_code 404);
      EvCloseSock 9;
      EvPrint (MsgUnhandledError BrokenPipeError);
      EvTaskDone;
      EvPrint (MsgNewConnection peer); EvParse 2;
      EvBodyRead (-5); EvPrint (MsgRequestBody "0123456789");
      EvSend 2 (from_status_code 405);
      EvPrint (MsgFailedToParse BrokenPipeError);
      EvSend 2 (from_status_code 404);
      EvCloseSock 2;
      EvPrint (MsgUnhandledError BrokenPipeError);
      EvTaskDone], Returned).
Proof. reflexivity. Qed.

End SiteRuns.

(* ===================================================================== *)
(** ** Paths in normal form *)
(* ===================================================================== *)

Module PathFacts.
Import Str PosixPath.
Local Open Scope string_scope.

Lemma append_nil_r s : (s ++ "")%string = s.
Proof. induction s as [|c s IH]; cbn; congruence. Qed.

Lemma append_assoc a b c : ((a ++ b) ++ c)%string = (a ++ b ++ c)%string.
Proof. induction a as [|x a IH]; cbn; congruence. Qed.

Lemma prefix_cons a s1 b s2 :
  String.prefix (String a s1) (String b s2)
  = if ascii_dec a b then String.prefix s1 s2 else false.
Proof. reflexivity. Qed.

Lemma prefix_nil s : String.prefix "" s = true.
Proof. now destruct s. Qed.

Lemma startswith_append s t : startswith (s ++ t) s = true.
Proof.
  unfold startswith. induction s as [|c s IH]; cbn [append].
  - apply prefix_nil.
  - rewrite prefix_cons. destruct (ascii_dec c c); congruence.
Qed.

Lemma slash_eqb_false c r :
  has_slash (String c r) = false -> Ascii.eqb c slash = false.
Proof. cbn. now destruct (Ascii.eqb c slash). Qed.

(** *** [split] and [join] *)

Lemma split_slash_not_nil s : split_slash s <> [].
Proof.
  destruct s as [|c s]; cbn; [discriminate|].
  destruct (Ascii.eqb c slash); [discriminate|].
  destruct (split_slash s); discriminate.
Qed.

Lemma split_slash_append a b :
  split_slash (a ++ String slash b) = (split_slash a ++ split_slash b)%list.
Proof.
  induction a as [|c a IH]; cbn [append split_slash].
  - now rewrite Ascii.eqb_refl.
  - rewrite IH. destruct (Ascii.eqb c slash); auto.
    destruct (split_slash a) eqn:E; [|reflexivity].
    now apply split_slash_not_nil in E.
Qed.

Lemma split_slash_plain c : has_slash c = false -> split_slash c = [c].
Proof.
  induction c as [|x c IH]; cbn; auto.
  destruct (Ascii.eqb x slash); [discriminate|]. cbn.
  intros H. now rewrite IH.
Qed.

Lemma clean_spec c :
  clean c = true ->
  c <> "" /\ c <> "." /\ c <> ".." /\ has_slash c = false.
Proof.
  unfold clean. rewrite !andb_true_iff, !negb_true_iff, !String.eqb_neq.
  tauto.
Qed.

Lemma join_slash_cons c rest :
  rest <> [] ->
  join_slash (c :: rest) = (c ++ String slash (join_slash rest))%string.
Proof. destruct rest; [congruence|reflexivity]. Qed.

Lemma split_join comps :
  comps <> [] -> forallb clean comps = true ->
  split_slash (join_slash comps) = comps.
Proof.
  induction comps as [|c rest IH]; [congruence|]. intros _ Hall.
  cbn [forallb] in Hall. apply andb_true_iff in Hall as [Hc Hrest].
  apply clean_spec in Hc as (_ & _ & _ & Hc).
  destruct rest as [|c' rest'].
  - now apply split_slash_plain.
  - rewrite join_slash_cons by discriminate.
    rewrite split_slash_append, split_slash_plain by assumption.
    rewrite IH; auto. discriminate.
Qed.

Lemma join_slash_snoc comps c :
  comps <> [] ->
  join_slash (comps ++ [c]) = (join_slash comps ++ String slash c)%string.
Proof.
  induction comps as [|x rest IH]; [congruence|]. intros _.
  destruct rest as [|y rest'].
  - reflexivity.
  - change ((x :: y :: rest') ++ [c])%list with (x :: ((y :: rest') ++ [c]))%list.
    rewrite join_slash_cons by (cbn; discriminate).
    rewrite IH by discriminate.
    rewrite (join_slash_cons x (y :: rest')) by discriminate.
    now rewrite append_assoc.
Qed.

(** A joined list of clean components neither starts nor ends with a
    slash. *)
Lemma join_slash_head comps :
  forallb clean comps = true -> startswith (join_slash comps) "/" = false.
Proof.
  destruct comps as [|c rest]; auto. cbn [forallb].
  intros Hall. apply andb_true_iff in Hall as [Hc _].
  apply clean_spec in Hc as (Hne & _ & _ & Hc).
  destruct c as [|x c]; [congruence|]. apply slash_eqb_false in Hc.
  unfold startswith.
  assert (H : forall t, String.prefix "/" (String x t) = false).
  { intros t. rewrite prefix_cons. destruct (ascii_dec "/" x) as [<-|]; auto.
    now rewrite Ascii.eqb_refl in Hc. }
  destruct rest; cbn [join_slash append]; apply H.
Qed.

Lemma endswith_slash_append a b :
  b <> "" -> endswith_slash (a ++ b) = endswith_slash b.
Proof.
  intros Hb. induction a as [|x a IH]; cbn [append]; auto.
  cbn [endswith_slash]. rewrite IH.
  destruct (a ++ b)%string eqn:E; auto.
  destruct a; cbn in E; congruence.
Qed.

Lemma endswith_slash_plain c : has_slash c = false -> endswith_slash c = false.
Proof.
  induction c as [|x c IH]; auto. cbn [has_slash endswith_slash].
  intros H. apply orb_false_iff in H as [Hx Hc].
  destruct c; auto.
Qed.

Lemma join_slash_tail comps :
  forallb clean comps = true -> endswith_slash (join_slash comps) = false.
Proof.
  induction comps as [|c rest IH]; auto. cbn [forallb].
  intros Hall. apply andb_true_iff in Hall as [Hc Hrest].
  apply clean_spec in Hc as (_ & _ & _ & Hc).
  destruct rest as [|c' rest'].
  - now apply endswith_slash_plain.
  - rewrite join_slash_cons by discriminate.
    rewrite endswith_slash_append by discriminate.
    cbn [endswith_slash].
    destruct (join_slash (c' :: rest')) eqn:E.
    + cbn [forallb] in Hrest. apply andb_true_iff in Hrest as [Hc' _].
      apply clean_spec in Hc' as (Hne & _).
      destruct rest'; cbn in E; [congruence|].
      destruct c'; cbn in E; congruence.
    + now apply IH.
Qed.

(** *** [normpath] *)

Lemma norm_step_clean init acc c :
  clean c = true -> norm_step init acc c = (acc ++ [c])%list.
Proof.
  intros Hc. apply clean_spec in Hc as (H1 & H2 & H3 & _).
  apply String.eqb_neq in H1, H2, H3.
  unfold norm_step. now rewrite H1, H2, H3.
Qed.

Lemma fold_norm_step_clean init comps : forall acc,
  forallb clean comps = true ->
  fold_left (norm_step init) comps acc = (acc ++ comps)%list.
Proof.
  induction comps as [|c rest IH]; intros acc Hall; cbn [fold_left].
  - now rewrite app_nil_r.
  - cbn [forallb] in Hall. apply andb_true_iff in Hall as [Hc Hrest].
    rewrite norm_step_clean, IH by assumption.
    now rewrite <- app_assoc.
Qed.

Lemma forallb_removelast {A} (p : A -> bool) l :
  forallb p l = true -> forallb p (removelast l) = true.
Proof.
  induction l as [|x l IH]; auto. cbn [forallb removelast].
  intros H. apply andb_true_iff in H as [Hx Hl].
  destruct l; auto. cbn [forallb]. now rewrite Hx, IH.
Qed.

Lemma last_clean acc :
  acc <> [] -> forallb clean acc = true -> clean (last acc "") = true.
Proof.
  induction acc as [|x l IH]; [congruence|]. intros _ H.
  cbn [forallb] in H. apply andb_true_iff in H as [Hx Hl].
  destruct l; auto. apply IH; [discriminate|assumption].
Qed.

(** Below a root, the loop of [normpath] keeps only clean components. *)
Lemma norm_step_keeps_clean init acc c :
  init <> 0 -> forallb clean acc = true -> has_slash c = false ->
  forallb clean (norm_step init acc c) = true.
Proof.
  intros Hinit Hacc Hc. unfold norm_step.
  destruct (String.eqb c "") eqn:E1; auto.
  destruct (String.eqb c ".") eqn:E2; auto.
  cbn [orb].
  destruct (String.eqb c "..") eqn:E3; cbn [negb orb].
  - apply Nat.eqb_neq in Hinit. rewrite Hinit. cbn [andb orb].
    destruct acc as [|x l] eqn:Eacc; auto. rewrite <- Eacc in *.
    assert (Hlast : String.eqb (last acc "") ".." = false).
    { assert (Hne : acc <> []) by (rewrite Eacc; discriminate).
      pose proof (last_clean acc Hne Hacc) as Hl.
      apply clean_spec in Hl as (_ & _ & Hl & _).
      now apply String.eqb_neq. }
    rewrite Hlast. now apply forallb_removelast.
  - rewrite forallb_app, Hacc. cbn [forallb andb].
    unfold clean. now rewrite E1, E2, E3, Hc.
Qed.

Lemma split_slash_no_slash s :
  forallb (fun c => negb (has_slash c)) (split_slash s) = true.
Proof.
  induction s as [|x s IH]; auto. cbn [split_slash].
  destruct (Ascii.eqb x slash) eqn:Ex; auto.
  destruct (split_slash s) as [|h t]; cbn [forallb has_slash] in *.
  - now rewrite Ex.
  - now rewrite Ex.
Qed.

Lemma fold_norm_step_keeps_clean init comps : forall acc,
  init <> 0 ->
  forallb (fun c => negb (has_slash c)) comps = true ->
  forallb clean acc = true ->
  forallb clean (fold_left (norm_step init) comps acc) = true.
Proof.
  induction comps as [|c rest IH]; intros acc Hinit Hcomps Hacc; auto.
  cbn [forallb] in Hcomps. apply andb_true_iff in Hcomps as [Hc Hrest].
  apply negb_true_iff in Hc.
  cbn [fold_left]. apply IH; auto. now apply norm_step_keeps_clean.
Qed.

Lemma split_slash_slashes k s :
  split_slash (slashes k ++ s) = (repeat "" k ++ split_slash s)%list.
Proof.
  induction k as [|k IH]; auto.
  cbn [slashes append split_slash repeat]. rewrite Ascii.eqb_refl, IH.
  reflexivity.
Qed.

Lemma fold_norm_step_empty init k comps : forall acc,
  fold_left (norm_step init) (repeat "" k ++ comps)%list acc
  = fold_left (norm_step init) comps acc.
Proof. induction k as [|k IH]; intros acc; cbn; auto. Qed.

Lemma initial_slashes_normal k comps :
  k = 1 \/ k = 2 -> forallb clean comps = true ->
  initial_slashes (slashes k ++ join_slash comps) = k.
Proof.
  intros Hk Hall. pose proof (join_slash_head comps Hall) as Hhead.
  unfold startswith in Hhead. unfold initial_slashes, startswith.
  destruct Hk as [-> | ->]; cbn [slashes append]; unfold slash;
    rewrite !prefix_cons; destruct (ascii_dec "/" "/"); try congruence;
    rewrite ?prefix_nil.
  - destruct (join_slash comps) as [|x t]; auto.
    rewrite !prefix_cons in *.
    destruct (ascii_dec "/" x);
      [rewrite prefix_nil in Hhead; discriminate | reflexivity].
  - destruct (join_slash comps) as [|x t]; auto.
    rewrite !prefix_cons in *.
    destruct (ascii_dec "/" x);
      [rewrite prefix_nil in Hhead; discriminate | reflexivity].
Qed.

Lemma slashes_not_empty k s :
  k = 1 \/ k = 2 -> String.eqb (slashes k ++ s) "" = false.
Proof. now intros [-> | ->]. Qed.

(** A path in normal form is left as it is. *)
Lemma normpath_normal k comps :
  k = 1 \/ k = 2 -> forallb clean comps = true ->
  normpath (slashes k ++ join_slash comps)
  = (slashes k ++ join_slash comps)%string.
Proof.
  intros Hk Hall. unfold normpath.
  rewrite slashes_not_empty by assumption.
  rewrite initial_slashes_normal by assumption. cbn zeta.
  unfold norm_comps. rewrite split_slash_slashes, fold_norm_step_empty.
  assert (Hcomps : fold_left (norm_step k) (split_slash (join_slash comps)) []
                   = comps).
  { destruct comps as [|c rest]; [reflexivity|].
    rewrite split_join by (auto; discriminate).
    now rewrite fold_norm_step_clean. }
  rewrite Hcomps. now rewrite slashes_not_empty.
Qed.

(** The normal form of an absolute path: one or two slashes and clean
    components. *)
Lemma normpath_absolute x :
  isabs x = true ->
  exists k comps,
    (k = 1 \/ k = 2) /\ forallb clean comps = true
    /\ normpath x = (slashes k ++ join_slash comps)%string.
Proof.
  intros Habs. unfold isabs in Habs.
  assert (Hk : initial_slashes x = 1 \/ initial_slashes x = 2).
  { unfold initial_slashes. rewrite Habs.
    destruct (_ && _); auto. }
  exists (initial_slashes x), (norm_comps (initial_slashes x) (split_slash x)).
  split; [assumption|]. split.
  - apply fold_norm_step_keeps_clean; auto.
    + destruct Hk as [-> | ->]; discriminate.
    + apply split_slash_no_slash.
  - unfold normpath.
    destruct x as [|c x]; [discriminate|]. cbn [String.eqb]. cbn zeta.
    now rewrite slashes_not_empty.
Qed.

(** Joining a clean name to a normalised absolute path gives a path in
    normal form that starts with the first one. *)
Lemma join_normal k comps name :
  k = 1 \/ k = 2 -> forallb clean comps = true -> clean name = true ->
  join (slashes k ++ join_slash comps) name
  = (slashes k ++ join_slash (comps ++ [name]))%string.
Proof.
  intros Hk Hall Hname. unfold join.
  assert (Hhead : startswith name "/" = false).
  { pose proof (join_slash_head [name]) as H. cbn in H.
    rewrite Hname in H. now apply H. }
  rewrite Hhead, slashes_not_empty by assumption. cbn [orb].
  destruct comps as [|c rest].
  - cbn [join_slash app]. rewrite append_nil_r.
    destruct Hk as [-> | ->]; reflexivity.
  - rewrite endswith_slash_append
      by (apply clean_spec in Hname; destruct rest, c; cbn;
          cbn in Hall; congruence).
    rewrite join_slash_tail by assumption.
    rewrite join_slash_snoc by discriminate.
    now rewrite !append_assoc.
Qed.

Theorem normpath_join_under_root x name :
  isabs x = true -> clean name = true ->
  normpath (join (normpath x) name) = join (normpath x) name
  /\ startswith (join (normpath x) name) (normpath x) = true.
Proof.
  intros Habs Hname.
  destruct (normpath_absolute x Habs) as (k & comps & Hk & Hall & ->).
  rewrite join_normal by assumption. split.
  - apply normpath_normal; auto.
    rewrite forallb_app, Hall. cbn. now rewrite Hname.
  - destruct comps as [|c rest].
    + cbn [join_slash app]. rewrite append_nil_r. apply startswith_append.
    + rewrite join_slash_snoc by discriminate.
      rewrite <- append_assoc. apply startswith_append.
Qed.

End PathFacts.

(* ===================================================================== *)
(** ** The monad and the shape of traces *)
(* ===================================================================== *)

Module TraceFacts.
Import Str PosixPath Eff Server.
Local Open Scope eff_scope.

(** A handler that catches everything leaves no exception of the body. *)
Lemma try_except_all {E A} (c : M E A) (h : exn -> M E A) :
  try_except c (fun _ => true) h =
  match outcome c with
  | Ok _ => c
  | Raise e => (events c ++ events (h e), outcome (h e))
  end.
Proof.
  destruct c as [t [a|e]]; unfold try_except, events, outcome; simpl; auto.
  now destruct (h e).
Qed.

Lemma none_app p t1 t2 : none p (t1 ++ t2) = none p t1 && none p t2.
Proof. apply forallb_app. Qed.



(** Unfolds the effectful combinators and splits on every test met. *)
Ltac unfold_eff :=
  cbv [bind try_except finally emit ret raise print send send_result
       from_socket body_read with_open events outcome fst snd].

Ltac split_innermost :=
  match goal with
  | |- context [match ?x with _ => _ end] =>
      lazymatch x with
      | context [match _ with _ => _ end] => fail
      | _ => destruct x eqn:?
      end
  end.

Ltac split_cases := repeat (split_innermost; cbn [app fst snd negb]).

Section ServeFile.
Variable w : world.
Variable sock : socket.
Variables path root : string.

(** [serve_file] touches neither the socket's life nor the interim
    status. *)
Lemma serve_file_no_close :
  none is_close_sock (events (serve_file w sock path root)) = true.
Proof.
  unfold serve_file.
  generalize (candidate w path root) (root_path_of w root). intros c r.
  generalize (content_type_of w c). intros ct.
  unfold_eff. split_cases; reflexivity.
Qed.



(** Every file [serve_file] opens is closed when it is left, whatever the
    way out. *)
Lemma serve_file_closes_files :
  open_files (events (serve_file w sock path root)) [] = [].
Proof.
  unfold serve_file.
  generalize (candidate w path root) (root_path_of w root). intros c r.
  generalize (content_type_of w c). intros ct.
  unfold_eff. split_cases; simpl; try reflexivity;
    destruct (string_dec c c); congruence.
Qed.

End ServeFile.

End TraceFacts.

(* ===================================================================== *)
(** ** The connection handler *)
(* ===================================================================== *)

Module HandlerFacts.
Import Str PosixPath Eff Server TraceFacts.
Local Open Scope eff_scope.

Lemma none_bind {A B} p (c : M event A) (k : A -> M event B) :
  none p (events c) = true ->
  (forall a, none p (events (k a)) = true) ->
  none p (events (bind c k)) = true.
Proof.
  destruct c as [t [a|e]]; unfold bind, events; simpl; intros Hc Hk; auto.
  specialize (Hk a). destruct (k a) as [t' r']. simpl in *.
  now rewrite none_app, Hc, Hk.
Qed.

Section Steps.
Variable w : world.
Variable sock : socket.
Variable req : request.

Lemma interim_run :
  interim w sock req =
  if expects_continue req
  then ([EvSend sock (from_status_code 100)],
        match Response_send w (from_status_code 100) sock with
        | None => Ok tt
        | Some e => Raise e
        end)
  else ([], Ok tt).
Proof. reflexivity. Qed.

(** [drain_body] calls [read] when, and only when, the declared length is
    not zero, and asks for that many bytes. *)
Lemma drain_body_run :
  drain_body req =
  if Z.eqb (content_len req) 0 then ([], Ok tt)
  else match body req (content_len req) with
       | Ok data =>
           ([EvBodyRead (content_len req); EvPrint (MsgRequestBody data)],
            Ok tt)
       | Raise e => ([EvBodyRead (content_len req)], Raise e)
       end.
Proof.
  unfold drain_body. generalize (content_len req). intros n.
  unfold_eff. destruct (Z.eqb n 0); simpl; auto;
    try (destruct (body req n); reflexivity).
Qed.

Lemma interim_no_close : none is_close_sock (events (interim w sock req)) = true.
Proof. rewrite interim_run. now destruct (expects_continue req). Qed.

Lemma interim_no_file : none is_file_access (events (interim w sock req)) = true.
Proof. rewrite interim_run. now destruct (expects_continue req). Qed.

Lemma drain_body_no_close : none is_close_sock (events (drain_body req)) = true.
Proof.
  rewrite drain_body_run.
  destruct (Z.eqb _ 0); auto. now destruct (body req _).
Qed.

Lemma drain_body_no_file : none is_file_access (events (drain_body req)) = true.
Proof.
  rewrite drain_body_run.
  destruct (Z.eqb _ 0); auto. now destruct (body req _).
Qed.


Lemma respond_no_close : none is_close_sock (events (respond w sock req)) = true.
Proof.
  unfold respond. destruct (negb _).
  - reflexivity.
  - apply serve_file_no_close.
Qed.



Lemma handle_request_no_close :
  none is_close_sock (events (handle_request w sock req)) = true.
Proof.
  unfold handle_request.
  apply none_bind; [apply interim_no_close|intros _].
  apply none_bind; [apply drain_body_no_close|intros _].
  apply respond_no_close.
Qed.



End Steps.

Section HandleClient.
Variable w : world.
Variable sock : socket.
Variable addr : address.

(** [handle_client] in one equation: the [try] block, the handler when the
    block raised, and the close of the socket. *)
Lemma handle_client_run :
  handle_client w sock addr =
  match outcome (try_block w sock) with
  | Ok _ =>
      ([EvPrint (MsgNewConnection addr)] ++ events (try_block w sock)
         ++ [EvCloseSock sock], Ok tt)
  | Raise e =>
      ([EvPrint (MsgNewConnection addr)] ++ events (try_block w sock)
         ++ events (on_error w sock e) ++ [EvCloseSock sock],
       outcome (on_error w sock e))
  end.
Proof.
  unfold handle_client. rewrite try_except_all.
  destruct (try_block w sock) as [t [[]|e]]; unfold events, outcome; simpl.
  - reflexivity.
  - now rewrite <- app_assoc.
Qed.

Lemma try_block_run :
  try_block w sock =
  match Request_from_socket w sock with
  | Ok req => ([EvParse sock] ++ events (handle_request w sock req),
               outcome (handle_request w sock req))
  | Raise e => ([EvParse sock], Raise e)
  end.
Proof.
  unfold try_block, from_socket, bind.
  destruct (Request_from_socket w sock) as [req|e]; auto.
  now destruct (handle_request w sock req).
Qed.

Lemma try_block_no_close :
  none is_close_sock (events (try_block w sock)) = true.
Proof.
  rewrite try_block_run. destruct (Request_from_socket w sock) as [req|e].
  - unfold events at 1. simpl. apply handle_request_no_close.
  - reflexivity.
Qed.

End HandleClient.

Section Parsed.
Variable w : world.
Variable sock : socket.
Variable addr : address.
Variable req : request.
Hypothesis Hparse : Request_from_socket w sock = Ok req.

Lemma handle_client_parsed :
  handle_client w sock addr =
  match outcome (handle_request w sock req) with
  | Ok _ =>
      ([EvPrint (MsgNewConnection addr); EvParse sock]
         ++ events (handle_request w sock req) ++ [EvCloseSock sock], Ok tt)
  | Raise e =>
      ([EvPrint (MsgNewConnection addr); EvParse sock]
         ++ events (handle_request w sock req)
         ++ events (on_error w sock e) ++ [EvCloseSock sock],
       outcome (on_error w sock e))
  end.
Proof.
  rewrite handle_client_run, try_block_run, Hparse.
  unfold outcome at 1. cbn [snd].
  destruct (outcome (handle_request w sock req)) as [[]|e];
    unfold events at 1; cbn [fst]; now rewrite <- !app_assoc.
Qed.


End Parsed.

End HandlerFacts.

Module Handler.
Import Str PosixPath Eff Server TraceFacts HandlerFacts.
Local Open Scope eff_scope.


Lemma on_error_no_close w sock e :
  none is_close_sock (events (on_error w sock e)) = true.
Proof. reflexivity. Qed.

(** With log lines that are written: on every way out of [handle_client]
    (the normal end, the early return after a 405, and every exception,
    caught or not) the client socket is closed: the close is the last
    effect of the call, and the only close. *)
Theorem handle_client_closes_socket :
  forall (w : world) (sock : socket) (addr : address),
  exists t,
    events (handle_client w sock addr) = t ++ [EvCloseSock sock]
    /\ none is_close_sock t = true.
Proof.
  intros w sock addr. rewrite handle_client_run.
  pose proof (try_block_no_close w sock) as Hb.
  destruct (outcome (try_block w sock)) as [[]|e]; unfold events at 1; cbn [fst].
  - exists ([EvPrint (MsgNewConnection addr)] ++ events (try_block w sock)).
    split; [now rewrite <- app_assoc|].
    now rewrite none_app, Hb.
  - exists ([EvPrint (MsgNewConnection addr)] ++ events (try_block w sock)
            ++ events (on_error w sock e)).
    split; [now rewrite <- !app_assoc|].
    now rewrite !none_app, Hb, on_error_no_close.
Qed.

Section Parsed.
Variable w : world.
Variable sock : socket.
Variable addr : address.
Variable req : request.
Hypothesis Hparse : Request_from_socket w sock = Ok req.



End Parsed.



End Handler.

(* ===================================================================== *)
(** ** The worker loop *)
(* ===================================================================== *)

Module Worker.
Import Str PosixPath Eff Server TraceFacts HandlerFacts.
Local Open Scope eff_scope.

Section Loop.
Variable w : world.

(** One turn of the loop with a connection: the handler, the log line when
    it raised, and [task_done]. *)
Lemma iteration_run sock addr :
  iteration w (Some (sock, addr)) =
  (events (handle_client w sock addr)
     ++ match outcome (handle_client w sock addr) with
        | Ok _ => []
        | Raise e => [EvPrint (MsgUnhandledError e)]
        end
     ++ [EvTaskDone],
   Ok tt).
Proof.
  unfold iteration. rewrite try_except_all.
  destruct (handle_client w sock addr) as [t [[]|e]];
    unfold finally, events, outcome; cbn; auto.
  now rewrite <- app_assoc.
Qed.

Lemma iteration_returns got : outcome (iteration w got) = Ok tt.
Proof.
  destruct got as [[sock addr]|]; [|reflexivity].
  now rewrite iteration_run.
Qed.

Lemma run_loop_cons self got stop_called rest :
  running self = true ->
  run_loop w self (Tick got stop_called :: rest) =
  (events (iteration w got)
     ++ fst (run_loop w (if stop_called then stop self else self) rest),
   snd (run_loop w (if stop_called then stop self else self) rest)).
Proof.
  intros Hrun. cbn [run_loop]. rewrite Hrun.
  pose proof (iteration_returns got) as Hit.
  destruct (iteration w got) as [t [[]|e]]; [|discriminate].
  now destruct (run_loop w _ rest).
Qed.

(** No exception ends the thread. *)
Lemma run_loop_never_dies sched : forall self e,
  snd (run_loop w self sched) <> Died e.
Proof.
  induction sched as [|[got stop_called] rest IH]; intros self e.
  - cbn. destruct (running self); discriminate.
  - destruct (running self) eqn:Hrun.
    + rewrite run_loop_cons by assumption. cbn [snd]. apply IH.
    + cbn. rewrite Hrun. discriminate.
Qed.

(** While nobody calls [stop], the loop goes on. *)
Lemma run_loop_goes_on sched : forall self,
  running self = true -> never_stopped sched ->
  snd (run_loop w self sched) = Looping.
Proof.
  induction sched as [|[got stop_called] rest IH]; intros self Hrun Hns.
  - cbn. now rewrite Hrun.
  - rewrite run_loop_cons by assumption. cbn [snd].
    inversion Hns as [|? ? Hhd Htl]; subst. now apply IH.
Qed.

Lemma run_cons self got rest :
  run w self (Tick got false :: rest) =
  (events (iteration w got) ++ fst (run w self rest), snd (run w self rest)).
Proof. unfold run. now rewrite run_loop_cons. Qed.

End Loop.

(** With log lines that are written: when the [try] block of
    [handle_client] raises (a failed parse is the first case), the
    handler logs the exception, sends status 404 and closes the socket.
    The worker that made the call goes on: when the 404 could not be
    written either, the loop logs that exception; in both cases it marks
    the connection done and serves the rest of its schedule, and no
    schedule makes the thread die of an exception. *)
Theorem exception_is_404_and_worker_goes_on :
  forall (w : world) (sock : socket) (addr : address) (e : exn)
         (self : HTTPWorker) (rest : list tick),
  outcome (try_block w sock) = Raise e ->
  handle_client w sock addr =
    ([EvPrint (MsgNewConnection addr)] ++ events (try_block w sock)
       ++ [EvPrint (MsgFailedToParse e);
           EvSend sock (from_status_code 404);
           EvCloseSock sock],
     match Response_send w (from_status_code 404) sock with
     | None => Ok tt
     | Some e' => Raise e'
     end)
  /\ (forall e0, Request_from_socket w sock = Raise e0 ->
        e0 = e /\ events (try_block w sock) = [EvParse sock])
  /\ run w self (Tick (Some (sock, addr)) false :: rest) =
       (events (handle_client w sock addr)
          ++ match Response_send w (from_status_code 404) sock with
             | None => []
             | Some e' => [EvPrint (MsgUnhandledError e')]
             end
          ++ [EvTaskDone] ++ fst (run w self rest),
        snd (run w self rest))
  /\ (forall sched e', snd (run w self sched) <> Died e').
Proof.
  intros w sock addr e self rest Hraise.
  assert (Hhc : handle_client w sock addr =
    ([EvPrint (MsgNewConnection addr)] ++ events (try_block w sock)
       ++ [EvPrint (MsgFailedToParse e);
           EvSend sock (from_status_code 404);
           EvCloseSock sock],
     match Response_send w (from_status_code 404) sock with
     | None => Ok tt
     | Some e' => Raise e'
     end)).
  { rewrite handle_client_run, Hraise. reflexivity. }
  split; [exact Hhc|]. split; [|split].
  - intros e0 He0. rewrite try_block_run, He0 in Hraise |- *.
    cbn in Hraise. split; [congruence|reflexivity].
  - rewrite run_cons, iteration_run.
    rewrite Hhc at 2. unfold outcome at 1. cbn [snd].
    unfold events at 1. cbn [fst].
    destruct (Response_send w (from_status_code 404) sock);
      now rewrite <- !app_assoc.
  - intros sched e'. apply run_loop_never_dies.
Qed.

(** C10. [run] sets the flag before it tests it, so a [stop] made before
    [run] starts is lost: the run is the one of a worker never stopped,
    its first turn of the loop is executed, and it leaves the loop only
    for a [stop] made later; the loop alone, entered with the flag as
    [stop] left it, would return at once. *)
Theorem stop_before_run_is_overwritten :
  forall (w : world) (self : HTTPWorker) (sched : list tick),
  running (stop self) = false
  /\ run_loop w (stop self) sched = ([], Returned)
  /\ run w (stop self) sched = run w HTTPWorker_init sched
  /\ (forall got stop_called rest,
        sched = Tick got stop_called :: rest ->
        exists t o,
          run w (stop self) sched = (events (iteration w got) ++ t, o))
  /\ (never_stopped sched -> snd (run w (stop self) sched) = Looping).
Proof.
  intros w self sched. repeat split.
  - now destruct sched.
  - intros got stop_called rest ->. unfold run.
    rewrite run_loop_cons by reflexivity. eauto.
  - intros Hns. unfold run. now apply run_loop_goes_on.
Qed.

End Worker.

(* ===================================================================== *)
(** ** The connection queue and the accept loop *)
(* ===================================================================== *)

Module AcceptLoop.
Import Eff Server.
Local Open Scope Z_scope.

Lemma qsize_snoc q c :
  Z.of_nat (length (queue q ++ [c])) = qsize q + 1.
Proof. unfold qsize. rewrite length_app. cbn. lia. Qed.

Lemma full_spec q :
  0 < maxsize q -> qsize q <= maxsize q ->
  (full q = true <-> qsize q = maxsize q).
Proof.
  intros Hpos Hle. unfold full.
  rewrite andb_true_iff, Z.ltb_lt, Z.leb_le. lia.
Qed.

Lemma put_blocks_iff_full q c : put q c = None <-> full q = true.
Proof. unfold put. destruct (full q); split; congruence. Qed.

Lemma invariant_start cap srv :
  0 < cap ->
  connection_queue srv = Queue_init cap ->
  invariant cap (start_state srv).
Proof.
  intros Hpos Hq. split; cbn [start_state server].
  - now rewrite Hq.
  - rewrite Hq. unfold qsize. cbn. lia.
  - intros _. unfold in_flight, waiting. cbn. now rewrite Hq.
Qed.

Ltac unchanged := cbv iota; assumption.

Ltac record_simpl :=
  cbn [server connection_queue with_queue queue maxsize unfinished_tasks
       pending serving accepted delivered host port worker_count
       worker_backlog].

Lemma invariant_step cap s a :
  0 < cap -> invariant cap s -> invariant cap (step s a).
Proof.
  intros Hpos [Hmax Hle Hlost].
  assert (Hs : invariant cap s) by (split; assumption).
  destruct a as [c| | |]; cbn [step].
  - (* Accept *)
    destruct (serving s) eqn:Hserv; [|unchanged].
    destruct (pending s) as [c'|] eqn:Hpend; [unchanged|].
    split; record_simpl; auto. intros _.
    rewrite (Hlost eq_refl). unfold in_flight, waiting. record_simpl.
    rewrite Hpend. now rewrite app_nil_r, <- app_assoc.
  - (* Put *)
    destruct (serving s) eqn:Hserv; [|unchanged].
    destruct (pending s) as [c|] eqn:Hpend; [|unchanged].
    unfold put. destruct (full _) eqn:Hfull; [unchanged|].
    split; record_simpl; auto.
    + unfold qsize. record_simpl. rewrite qsize_snoc.
      unfold full in Hfull. rewrite Hmax in Hfull.
      apply andb_false_iff in Hfull.
      rewrite Z.ltb_ge, Z.leb_gt in Hfull. lia.
    + intros _. rewrite (Hlost eq_refl). unfold in_flight, waiting.
      record_simpl. rewrite Hpend. now rewrite app_nil_r.
  - (* WorkerGet *)
    unfold get.
    destruct (queue (connection_queue (server s))) as [|c rest] eqn:Hq;
      [unchanged|].
    split; record_simpl; auto.
    + unfold qsize in *. record_simpl. rewrite Hq in Hle.
      cbn [length] in Hle. lia.
    + intros Hserv. rewrite (Hlost Hserv). unfold in_flight, waiting.
      record_simpl. rewrite Hq. now rewrite <- !app_assoc.
  - (* Interrupt *)
    split; record_simpl; auto. discriminate.
Qed.

Lemma invariant_steps cap acts : forall s,
  0 < cap -> invariant cap s -> invariant cap (steps s acts).
Proof.
  induction acts as [|a acts IH]; intros s Hpos Hinv; cbn; auto.
  apply IH; auto. now apply invariant_step.
Qed.

(** C9 (as amended). With a positive [worker_count], the queue built by
    [HTTPServer.__init__] is empty and has capacity [worker_count * 8];
    in every state the accept loop reaches, the queue holds at most that
    many connections, [put] waits exactly when it holds that many and
    then changes nothing, and as long as the loop serves, the accepted
    connections are, in order, the ones handed to workers followed by the
    ones in the queue and the one [put] is waiting with. *)
Theorem queue_capacity_and_backpressure :
  forall (h : string) (p worker_count : Z) (acts : list action),
  0 < worker_count ->
  connection_queue (HTTPServer_init h p worker_count)
    = Queue_init (worker_count * 8)
  /\ invariant (worker_count * 8)
       (steps (start_state (HTTPServer_init h p worker_count)) acts)
  /\ (forall c,
        put (connection_queue
               (server (steps (start_state (HTTPServer_init h p worker_count))
                          acts))) c = None
        <-> qsize (connection_queue
                     (server (steps (start_state
                                       (HTTPServer_init h p worker_count))
                                acts)))
            = worker_count * 8)
  /\ (qsize (connection_queue
               (server (steps (start_state (HTTPServer_init h p worker_count))
                          acts)))
      = worker_count * 8 ->
      step (steps (start_state (HTTPServer_init h p worker_count)) acts) Put
      = steps (start_state (HTTPServer_init h p worker_count)) acts).
Proof.
  intros h p wc acts Hpos.
  assert (Hcap : 0 < wc * 8) by lia.
  assert (Hinv : invariant (wc * 8)
                   (steps (start_state (HTTPServer_init h p wc)) acts)).
  { apply invariant_steps; auto. now apply invariant_start. }
  split; [reflexivity|]. split; [exact Hinv|].
  destruct Hinv as [Hmax Hle _].
  set (s := steps _ acts) in *.
  assert (Hfull : forall c, put (connection_queue (server s)) c = None
                            <-> qsize (connection_queue (server s)) = wc * 8).
  { intros c. rewrite put_blocks_iff_full, full_spec; rewrite Hmax; tauto || lia. }
  split; [exact Hfull|].
  intros Hsize. cbn [step].
  destruct (serving s); auto. destruct (pending s) as [c|]; auto.
  apply (Hfull c) in Hsize. now rewrite Hsize.
Qed.

(** With no worker the bound is 0, which [queue.Queue] reads as no bound:
    [put] never waits. *)
Remark queue_unbounded_without_workers h p c acts :
  put (connection_queue
         (server (steps (start_state (HTTPServer_init h p 0)) acts))) c
  <> None.
Proof.
  assert (H : forall s, maxsize (connection_queue (server s)) = 0 ->
                        maxsize (connection_queue (server (steps s acts))) = 0).
  { induction acts as [|a acts IH]; intros s Hs; cbn; auto.
    apply IH. destruct a; cbn [step]; auto.
    - destruct (serving s), (pending s); auto.
    - destruct (serving s), (pending s); auto.
      unfold put. destruct (full _); auto.
    - unfold get. destruct (queue _); auto. }
  unfold put, full. rewrite H by reflexivity. cbn. discriminate.
Qed.

End AcceptLoop.

(* ===================================================================== *)
(** ** The static file resolver *)
(* ===================================================================== *)

Module Resolver.
Import Str PosixPath Eff Server TraceFacts HandlerFacts PathFacts Site.
Local Open Scope eff_scope.

Section ServeFile.
Variable w : world.
Variable sock : socket.
Variables path root : string.

Let c := candidate w path root.
Let r := root_path_of w root.

(** The check on the normalised path: a candidate that does not start with
    the root path is answered 404, and no file is touched. *)
Lemma serve_file_rejected :
  startswith c r = false ->
  serve_file w sock path root =
  ([EvSend sock (from_status_code 404)],
   send_result w sock (from_status_code 404)).
Proof. unfold serve_file. fold c r. now intros ->. Qed.



(** What [serve_file] does with a file it could open. *)
Lemma serve_file_opened data :
  startswith c r = true ->
  open_rb w c = Ok data ->
  exists t out,
    serve_file w sock path root =
      ([EvOpen c true;
        EvSend sock
          (Response "200 OK" [("content-type", content_type_of w c)]
             {| file_name := c; file_content := data |});
        EvCloseFile c] ++ t, out)
    /\ (Response_send w
          (Response "200 OK" [("content-type", content_type_of w c)]
             {| file_name := c; file_content := data |}) sock = None ->
        t = [] /\ out = Ok tt).
Proof.
  intros Hin Hopen. unfold serve_file. fold c r. rewrite Hin. cbn [negb].
  unfold with_open. rewrite Hopen.
  set (res := Response "200 OK" _ _).
  unfold_eff. cbn [app].
  destruct (Response_send w res sock) as [e|] eqn:Hsend.
  - destruct (is_FileNotFoundError e).
    + eexists _, _. split; [reflexivity|discriminate].
    + exists [], (Raise e). split; [reflexivity|discriminate].
  - exists [], (Ok tt). split; [reflexivity|auto].
Qed.

(** Every [open] of [serve_file] is on the candidate, and the candidate
    then starts with the root path. *)
Lemma serve_file_opens_candidate p ok :
  In (EvOpen p ok) (events (serve_file w sock path root)) ->
  p = c /\ startswith c r = true.
Proof.
  unfold serve_file. fold c r.
  generalize (content_type_of w c). intros ct.
  destruct (startswith c r) eqn:Hs; cbn [negb]; unfold_eff; split_cases; cbn;
    intros H; repeat destruct H as [H|H];
    try discriminate; try contradiction; injection H as <- _; auto.
Qed.

End ServeFile.

Lemma isabs_append a b : isabs a = true -> isabs (a ++ b) = true.
Proof.
  unfold isabs, startswith. destruct a as [|x a]; [discriminate|].
  cbn [append]. rewrite !prefix_cons.
  destruct (ascii_dec "/" x); [|discriminate]. intros _. apply prefix_nil.
Qed.

(** Under an absolute working directory the root path is the normal form
    of an absolute path. *)
Lemma root_path_absolute w root :
  isabs (getcwd w) = true ->
  exists x, isabs x = true /\ root_path_of w root = normpath x.
Proof.
  intros Hcwd. unfold root_path_of, abspath.
  destruct (isabs root) eqn:Hroot.
  - now exists root.
  - exists (join (getcwd w) root). split; [|reflexivity].
    unfold join. unfold isabs in Hroot. rewrite Hroot.
    destruct (_ || _); now apply isabs_append.
Qed.

(** C1 (evaluated at the failing input). With the root [/srv/www] and a
    directory [/srv/www-private] next to it, the request path
    [/../www-private/key.pem] normalises to a file outside the root whose
    name starts with the root path, and [serve_file] sends it. *)
Theorem serve_file_sibling_directory_escape :
  root_path_of site "www" = "/srv/www"
  /\ candidate site "/../www-private/key.pem" "www"
     = "/srv/www-private/key.pem"
  /\ inside "/srv/www" "/srv/www-private/key.pem" = false
  /\ startswith "/srv/www-private/key.pem" "/srv/www" = true
  /\ serve_file site 6 "/../www-private/key.pem" "www" =
     ([EvOpen "/srv/www-private/key.pem" true;
       EvSend 6 (Response "200 OK"
                   [("content-type", "application/octet-stream")]
                   {| file_name := "/srv/www-private/key.pem";
                      file_content := "SECRET" |});
       EvCloseFile "/srv/www-private/key.pem"], Ok tt).
Proof. repeat split. Qed.

(** C5 (the claim fails on the empty path). On a root that holds
    [index.html], the empty request path is not rewritten: the candidate
    is the root directory itself, [open] fails on it, [serve_file] raises
    and the client gets a 404, while ["/"] is served the page. *)
Lemma empty_path_is_not_rewritten :
  open_rb site "/srv/www/index.html" = Ok "<h1>It works</h1>"
  /\ candidate site "/" "www" = "/srv/www/index.html"
  /\ candidate site "" "www" = "/srv/www"
  /\ serve_file site 1 "" "www"
     = ([EvOpen "/srv/www" false], Raise IsADirectoryError)
  /\ handle_client site 1 peer =
     ([EvPrint (MsgNewConnection peer); EvParse 1;
       EvOpen "/srv/www" false;
       EvPrint (MsgFailedToParse IsADirectoryError);
       EvSend 1 (from_status_code 404);
       EvCloseSock 1], Ok tt).
Proof. repeat split. Qed.

(** C5 (as amended). [serve_file] treats the path ["/"] as
    ["/index.html"]; under an absolute working directory, when
    [index.html] in the root can be opened, ["/"] is answered with a 200
    response whose body is that file, and with nothing else when the
    response could be written. *)
Theorem root_path_serves_index :
  forall (w : world) (sock : socket) (root data : string),
  isabs (getcwd w) = true ->
  open_rb w (join (root_path_of w root) "index.html") = Ok data ->
  serve_file w sock "/" root = serve_file w sock "/index.html" root
  /\ candidate w "/" root = join (root_path_of w root) "index.html"
  /\ exists t out,
       serve_file w sock "/" root =
         ([EvOpen (candidate w "/" root) true;
           EvSend sock
             (Response "200 OK"
                [("content-type", content_type_of w (candidate w "/" root))]
                {| file_name := candidate w "/" root;
                   file_content := data |});
           EvCloseFile (candidate w "/" root)] ++ t, out)
       /\ (Response_send w
             (Response "200 OK"
                [("content-type", content_type_of w (candidate w "/" root))]
                {| file_name := candidate w "/" root;
                   file_content := data |}) sock = None ->
           t = [] /\ out = Ok tt).
Proof.
  intros w sock root data Hcwd Hopen.
  destruct (root_path_absolute w root Hcwd) as (x & Habs & Hroot).
  assert (Hname : clean "index.html" = true) by reflexivity.
  destruct (normpath_join_under_root x "index.html" Habs Hname)
    as [Hnorm Hprefix].
  assert (Hcand : candidate w "/" root
                  = join (root_path_of w root) "index.html").
  { change (candidate w "/" root)
      with (normpath (join (root_path_of w root) "index.html")).
    now rewrite Hroot. }
  split; [reflexivity|]. split; [exact Hcand|].
  apply serve_file_opened.
  - rewrite Hcand, Hroot. exact Hprefix.
  - now rewrite Hcand.
Qed.




End Resolver.

(* ===================================================================== *)
(** ** The declared body length *)
(* ===================================================================== *)

Module BodyLength.
Import Str PosixPath Eff Server TraceFacts HandlerFacts PathFacts Site.

Lemma prefix_spec n : forall h,
  String.prefix n h = true <-> exists b, h = (n ++ b)%string.
Proof.
  induction n as [|x n IH]; intros h.
  - rewrite prefix_nil. split; auto. intros _. now exists h.
  - destruct h as [|y h].
    + split; [discriminate|]. intros [b Hb]. discriminate.
    + rewrite prefix_cons. destruct (ascii_dec x y) as [<-|Hxy].
      * rewrite IH. split; intros [b Hb]; exists b.
        -- cbn. now rewrite Hb.
        -- cbn in Hb. congruence.
      * split; [discriminate|]. intros [b Hb]. cbn in Hb. congruence.
Qed.

(** [contains] is substring containment. *)
Lemma contains_spec n h :
  contains n h = true <-> exists a b, h = (a ++ n ++ b)%string.
Proof.
  induction h as [|y h IH].
  - cbn [contains]. rewrite orb_false_r, prefix_spec. split.
    + intros [b Hb]. now exists ""%string, b.
    + intros (a & b & Hab). destruct a; cbn in Hab; eauto.
      discriminate.
  - cbn [contains]. rewrite orb_true_iff, prefix_spec, IH. split.
    + intros [[b Hb] | (a & b & Hab)].
      * now exists ""%string, b.
      * exists (String y a), b. cbn. now rewrite Hab.
    + intros (a & b & Hab). destruct a as [|x a].
      * left. now exists b.
      * right. exists a, b. cbn in Hab. congruence.
Qed.

Lemma headers_get_missing h name default :
  (forall k v, In (k, v) h -> String.eqb (lower k) (lower name) = false) ->
  headers_get h name default = default.
Proof.
  induction h as [|[k v] h IH]; intros Hnone; cbn; auto.
  rewrite (Hnone k v) by (now left).
  apply IH. intros k' v' Hin. apply (Hnone k' v'). now right.
Qed.

(** A missing header and a value that [int] refuses both give length 0. *)
Lemma content_len_missing req :
  (forall k v, In (k, v) (headers req) ->
               String.eqb (lower k) "content-length" = false) ->
  content_len req = 0%Z.
Proof.
  intros Hnone. unfold content_len.
  now rewrite headers_get_missing by exact Hnone.
Qed.

Lemma content_len_invalid req :
  PyInt.int (headers_get (headers req) "content-length" "0") = None ->
  content_len req = 0%Z.
Proof. unfold content_len. now intros ->. Qed.

Lemma content_len_valid req n :
  PyInt.int (headers_get (headers req) "content-length" "0") = Some n ->
  content_len req = n.
Proof. unfold content_len. now intros ->. Qed.

(** The body is read exactly when the declared length is not zero, and
    then [read] is asked for that length. *)
Lemma drain_body_reads req n :
  In (EvBodyRead n) (events (drain_body req))
  <-> n = content_len req /\ n <> 0%Z.
Proof.
  rewrite drain_body_run.
  destruct (Z.eqb (content_len req) 0) eqn:Hz.
  - apply Z.eqb_eq in Hz. cbn. split; [tauto|]. intros [-> H]. congruence.
  - apply Z.eqb_neq in Hz.
    destruct (body req (content_len req)); cbn; split;
      try (intros [H|H]; [injection H as <-; auto| try destruct H as [H|H];
                                                   try discriminate; tauto]);
      intros [-> _]; auto.
Qed.

(** C4 (evaluated at the failing input). A request that declares the
    length [-5]: [int] accepts the value, the test of the length is on
    its being non-zero, and [read(-5)] is called. *)
Theorem negative_content_length_is_read :
  Request_from_socket site 2
  = Ok (post_request "/index.html" [("Content-Length", "-5")])
  /\ content_len (post_request "/index.html" [("Content-Length", "-5")])
     = (-5)%Z
  /\ handle_client site 2 peer =
     ([EvPrint (MsgNewConnection peer); EvParse 2;
       EvBodyRead (-5); EvPrint (MsgRequestBody "0123456789");
       EvSend 2 (from_status_code 405);
       EvCloseSock 2], Ok tt).
Proof. repeat split. Qed.

End BodyLength.

(* ===================================================================== *)
(** ** The theorems at work on the concrete site *)
(* ===================================================================== *)

Module OnSite.
Import Str PosixPath Eff Server TraceFacts Site.

(** A malformed request: 404, and the socket closed. *)
Lemma malformed_request_run :
  outcome (try_block site 9) = Raise (OtherException "malformed request line")
  /\ handle_client site 9 peer =
     ([EvPrint (MsgNewConnection peer); EvParse 9;
       EvPrint (MsgFailedToParse (OtherException "malformed request line"));
       EvSend 9 (from_status_code 404);
       EvCloseSock 9], Ok tt).
Proof.
  split; [reflexivity|].
  exact (proj1 (Worker.exception_is_404_and_worker_goes_on
                  site 9 peer (OtherException "malformed request line")
                  HTTPWorker_init [] eq_refl)).
Defined.



(** The server with its default of 16 workers: capacity 128; after two
    accepts and one worker's [get], nothing is lost. *)
Lemma default_server_run :
  (0 < 16)%Z
  /\ invariant 128%Z
       (steps (start_state (HTTPServer_init "127.0.0.1" 8080%Z 16%Z))
          [Accept (7, peer); Put; Accept (8, peer); WorkerGet; Put]).
Proof.
  assert (Hpos : (0 < 16)%Z) by lia.
  split; [exact Hpos|].
  exact (proj1 (proj2 (AcceptLoop.queue_capacity_and_backpressure
                         "127.0.0.1" 8080%Z 16%Z
                         [Accept (7, peer); Put; Accept (8, peer);
                          WorkerGet; Put] Hpos))).
Defined.

(** The page of the site is behind ["/"]. *)
Lemma root_page_run :
  isabs (getcwd site) = true
  /\ open_rb site (join (root_path_of site "www") "index.html")
     = Ok "<h1>It works</h1>"
  /\ candidate site "/" "www" = "/srv/www/index.html".
Proof.
  split; [reflexivity|]. split; [reflexivity|].
  exact (proj1 (proj2 (Resolver.root_path_serves_index
                         site 0 "www" "<h1>It works</h1>"
                         eq_refl eq_refl))).
Defined.


(** A worker stopped before it ran, on an idle queue. *)
Lemma stopped_then_run :
  never_stopped [Tick None false; Tick None false]
  /\ snd (run site (stop HTTPWorker_init) [Tick None false; Tick None false])
     = Looping.
Proof.
  assert (Hns : never_stopped [Tick None false; Tick None false])
    by (repeat constructor).
  split; [exact Hns|].
  exact (proj2 (proj2 (proj2 (proj2
           (Worker.stop_before_run_is_overwritten
              site HTTPWorker_init [Tick None false; Tick None false]))))
           Hns).
Defined.

End OnSite.

(* ===================================================================== *)
(** ** What the check on the root path grants *)
(* ===================================================================== *)

Module Sandbox.
Import Str PosixPath Eff Server PathFacts TraceFacts Site.

(** *** Prefixes of joined components *)

Lemma head_not_slash comps x t :
  forallb clean comps = true -> join_slash comps = String x t ->
  x <> slash.
Proof.
  intros Hall Hj. pose proof (join_slash_head comps Hall) as H.
  unfold startswith in H. rewrite Hj, prefix_cons in H.
  intros ->. unfold slash in H.
  destruct (ascii_dec "/" "/"); [|congruence].
  now rewrite prefix_nil in H.
Qed.

Lemma join_slash_not_empty comps :
  comps <> [] -> forallb clean comps = true -> join_slash comps <> "".
Proof.
  destruct comps as [|c rest]; [congruence|]. intros _ Hall.
  cbn [forallb] in Hall. apply andb_true_iff in Hall as [Hc _].
  apply clean_spec in Hc as (Hne & _).
  destruct rest; cbn [join_slash]; destruct c; cbn; congruence.
Qed.

Lemma prefix_plain b : forall b' y,
  has_slash b = false ->
  String.prefix b (b' ++ String slash y) = true ->
  String.prefix b b' = true.
Proof.
  induction b as [|x b IH]; intros b' y Hb Hp.
  - apply prefix_nil.
  - cbn [has_slash] in Hb. apply orb_false_iff in Hb as [Hx Hb].
    destruct b' as [|x' b']; cbn [append] in Hp; rewrite prefix_cons in *.
    + destruct (ascii_dec x slash) as [->|]; [|discriminate].
      now rewrite Ascii.eqb_refl in Hx.
    + destruct (ascii_dec x x'); [|discriminate]. now apply IH with y.
Qed.

Lemma prefix_slash_inside a x : forall a',
  String.prefix (a ++ String slash x) a' = true -> has_slash a' = true.
Proof.
  induction a as [|c a IH]; intros a' Hp.
  - destruct a' as [|c' a']; [discriminate|].
    cbn [append] in Hp. rewrite prefix_cons in Hp.
    destruct (ascii_dec slash c') as [<-|]; [|discriminate].
    cbn [has_slash]. now rewrite Ascii.eqb_refl.
  - destruct a' as [|c' a']; [discriminate|].
    cbn [append] in Hp. rewrite prefix_cons in Hp.
    destruct (ascii_dec c c'); [|discriminate].
    cbn [has_slash]. rewrite (IH a' Hp). apply orb_true_r.
Qed.

Lemma prefix_component a : forall a' x y,
  has_slash a = false -> has_slash a' = false ->
  String.prefix (a ++ String slash x) (a' ++ String slash y) = true ->
  a = a' /\ String.prefix x y = true.
Proof.
  induction a as [|c a IH]; intros a' x y Ha Ha' Hp.
  - destruct a' as [|c' a']; cbn [append] in Hp; rewrite prefix_cons in Hp.
    + destruct (ascii_dec slash slash); [auto|congruence].
    + destruct (ascii_dec slash c') as [<-|]; [|discriminate].
      cbn [has_slash] in Ha'. now rewrite Ascii.eqb_refl in Ha'.
  - cbn [has_slash] in Ha. apply orb_false_iff in Ha as [Hc Ha].
    destruct a' as [|c' a']; cbn [append] in Hp; rewrite prefix_cons in Hp.
    + destruct (ascii_dec c slash) as [->|]; [|discriminate].
      now rewrite Ascii.eqb_refl in Hc.
    + destruct (ascii_dec c c') as [<-|]; [|discriminate].
      cbn [has_slash] in Ha'. apply orb_false_iff in Ha' as [_ Ha'].
      destruct (IH a' x y Ha Ha' Hp) as [-> Hxy]. auto.
Qed.

Lemma clean_cons c rest :
  forallb clean (c :: rest) = true ->
  c <> "" /\ has_slash c = false /\ forallb clean rest = true.
Proof.
  cbn [forallb]. intros H. apply andb_true_iff in H as [Hc Hrest].
  apply clean_spec in Hc as (Hne & _ & _ & Hc). auto.
Qed.

Lemma confined_cons a rest a' rest' :
  rest <> [] ->
  confined (a :: rest) (a' :: rest')
  = String.eqb a a' && confined rest rest'.
Proof. destruct rest; [congruence|reflexivity]. Qed.

(** A prefix between two joined lists of clean components holds them
    together up to the last component of the shorter one. *)
Lemma prefix_join_confined root_comps : forall path_comps,
  forallb clean root_comps = true -> forallb clean path_comps = true ->
  String.prefix (join_slash root_comps) (join_slash path_comps) = true ->
  confined root_comps path_comps = true.
Proof.
  induction root_comps as [|a rest IH]; intros path_comps Hr Hp Hpre; auto.
  apply clean_cons in Hr as (Hane & Ha & Hrest).
  destruct path_comps as [|a' rest'].
  - exfalso. destruct rest; cbn [join_slash] in Hpre;
      destruct a; cbn in Hpre; congruence.
  - apply clean_cons in Hp as (Ha'ne & Ha' & Hrest').
    destruct rest as [|b rest].
    + cbn [confined]. destruct rest' as [|b' rest'']; auto.
      rewrite (join_slash_cons a') in Hpre by discriminate.
      cbn [join_slash] in Hpre. now apply prefix_plain in Hpre.
    + rewrite (join_slash_cons a) in Hpre by discriminate.
      destruct rest' as [|b' rest''].
      * cbn [join_slash] in Hpre. apply prefix_slash_inside in Hpre.
        congruence.
      * rewrite (join_slash_cons a') in Hpre by discriminate.
        apply prefix_component in Hpre as [<- Hpre]; auto.
        rewrite confined_cons by discriminate.
        rewrite String.eqb_refl. cbn [andb]. now apply IH.
Qed.

(** The same with the leading slashes of two absolute normal forms. *)
Lemma startswith_normal_confined k k' root_comps path_comps :
  k = 1 \/ k = 2 -> k' = 1 \/ k' = 2 ->
  forallb clean root_comps = true -> forallb clean path_comps = true ->
  startswith (slashes k' ++ join_slash path_comps)
             (slashes k ++ join_slash root_comps) = true ->
  confined root_comps path_comps = true.
Proof.
  intros Hk Hk' Hr Hp. unfold startswith.
  assert (Hshort : String.prefix (join_slash root_comps)
                     (String slash (join_slash path_comps)) = true ->
                   confined root_comps path_comps = true).
  { destruct (join_slash root_comps) as [|x t] eqn:Hj.
    - destruct root_comps as [|c rest]; auto.
      now apply join_slash_not_empty in Hj.
    - rewrite prefix_cons. destruct (ascii_dec x slash) as [->|]; [|discriminate].
      now apply head_not_slash in Hj. }
  assert (Hlong : String.prefix (String slash (join_slash root_comps))
                    (join_slash path_comps) = true -> False).
  { destruct (join_slash path_comps) as [|x t] eqn:Hj; [discriminate|].
    rewrite prefix_cons. destruct (ascii_dec slash x) as [<-|]; [|discriminate].
    now apply head_not_slash in Hj. }
  destruct Hk as [-> | ->], Hk' as [-> | ->]; cbn [slashes append];
    rewrite !prefix_cons; destruct (ascii_dec slash slash); try congruence;
    intros Hpre; auto using prefix_join_confined.
Qed.

(** *** The components of a normal form *)

Lemma filter_repeat_empty k (l : list string) :
  filter (fun c => negb (String.eqb c "")) (repeat "" k ++ l)
  = filter (fun c => negb (String.eqb c "")) l.
Proof. induction k as [|k IH]; cbn; auto. Qed.

Lemma filter_clean comps :
  forallb clean comps = true ->
  filter (fun c => negb (String.eqb c "")) comps = comps.
Proof.
  induction comps as [|c rest IH]; auto. intros Hall.
  apply clean_cons in Hall as (Hne & _ & Hrest).
  cbn [filter]. apply String.eqb_neq in Hne. rewrite Hne. cbn [negb].
  now rewrite IH.
Qed.

Lemma components_normal k comps :
  forallb clean comps = true ->
  components (slashes k ++ join_slash comps) = comps.
Proof.
  intros Hall. unfold components.
  rewrite split_slash_slashes, filter_repeat_empty.
  destruct comps as [|c rest]; [reflexivity|].
  rewrite split_join by (auto; discriminate). now apply filter_clean.
Qed.

Lemma list_prefix_app l : forall l', list_prefix l (l ++ l') = true.
Proof.
  induction l as [|c l IH]; intros l'; cbn; auto.
  now rewrite String.eqb_refl, IH.
Qed.

(** *** Joining a relative path in normal form *)

Lemma join_slash_app l1 l2 :
  l1 <> [] -> l2 <> [] ->
  join_slash (l1 ++ l2)
  = (join_slash l1 ++ String slash (join_slash l2))%string.
Proof.
  induction l1 as [|c rest IH]; [congruence|]. intros _ H2.
  destruct rest as [|c' rest'].
  - cbn [app]. now rewrite join_slash_cons.
  - change ((c :: c' :: rest') ++ l2) with (c :: ((c' :: rest') ++ l2)).
    rewrite join_slash_cons by (cbn; discriminate).
    rewrite IH by (auto; discriminate).
    rewrite (join_slash_cons c (c' :: rest')) by discriminate.
    now rewrite append_assoc.
Qed.

Lemma join_normal_path k root_comps comps :
  k = 1 \/ k = 2 -> forallb clean root_comps = true ->
  comps <> [] -> forallb clean comps = true ->
  join (slashes k ++ join_slash root_comps) (join_slash comps)
  = (slashes k ++ join_slash (root_comps ++ comps))%string.
Proof.
  intros Hk Hr Hne Hc. unfold join.
  rewrite (join_slash_head comps Hc), slashes_not_empty by assumption.
  cbn [orb]. destruct root_comps as [|c rest].
  - cbn [join_slash app]. rewrite append_nil_r.
    destruct Hk as [-> | ->]; reflexivity.
  - rewrite endswith_slash_append
      by (apply join_slash_not_empty; [discriminate|assumption]).
    rewrite join_slash_tail by assumption.
    rewrite join_slash_app by (auto; discriminate).
    now rewrite !append_assoc.
Qed.

Lemma lstrip_slash_slashes j s :
  startswith s "/" = false -> lstrip_slash (slashes j ++ s) = s.
Proof.
  intros Hs. induction j as [|j IH]; cbn [slashes append lstrip_slash].
  - destruct s as [|x t]; auto. cbn [lstrip_slash].
    unfold startswith in Hs. rewrite prefix_cons in Hs.
    destruct (Ascii.eqb_spec x slash) as [->|]; auto.
    unfold slash in Hs. destruct (ascii_dec "/" "/"); [|congruence].
    now rewrite prefix_nil in Hs.
  - now rewrite Ascii.eqb_refl.
Qed.

Lemma lstrip_slash_relative p : startswith (lstrip_slash p) "/" = false.
Proof.
  induction p as [|x p IH]; auto. cbn [lstrip_slash].
  destruct (Ascii.eqb_spec x slash) as [->|Hx]; auto.
  unfold startswith. rewrite prefix_cons.
  destruct (ascii_dec "/" x) as [<-|]; auto. now elim Hx.
Qed.

(** *** [serve_file] *)

Lemma count_open_le_1 w sock path root :
  count is_open (events (serve_file w sock path root)) <= 1.
Proof.
  unfold serve_file.
  generalize (candidate w path root) (root_path_of w root). intros c r.
  generalize (content_type_of w c). intros ct.
  unfold_eff. split_cases; cbn; auto.
Qed.

(** X1. [serve_file] answers a candidate that does not start with the root
    path with a 404 and nothing else; it calls [open] at most once, on the
    candidate, and only when the candidate starts with the root path. *)
Theorem serve_file_opens_under_prefix :
  forall (w : world) (sock : socket) (path root : string),
  (startswith (candidate w path root) (root_path_of w root) = false ->
   serve_file w sock path root =
     ([EvSend sock (from_status_code 404)],
      send_result w sock (from_status_code 404)))
  /\ (forall p ok,
        In (EvOpen p ok) (events (serve_file w sock path root)) ->
        p = candidate w path root
        /\ startswith p (root_path_of w root) = true)
  /\ count is_open (events (serve_file w sock path root)) <= 1.
Proof.
  intros w sock path root. split; [|split].
  - apply Resolver.serve_file_rejected.
  - intros p ok Hin.
    destruct (Resolver.serve_file_opens_candidate w sock path root p ok Hin)
      as [-> Hs]. auto.
  - apply count_open_le_1.
Qed.

Lemma isabs_normal k comps : k = 1 \/ k = 2 ->
  isabs (slashes k ++ join_slash comps) = true.
Proof. intros [-> | ->]; now apply Resolver.isabs_append. Qed.

(** Under an absolute working directory both the root path and the
    candidate are absolute paths in normal form. *)
Lemma root_and_candidate_normal w path root :
  isabs (getcwd w) = true ->
  exists k root_comps k' path_comps,
    (k = 1 \/ k = 2) /\ (k' = 1 \/ k' = 2)
    /\ forallb clean root_comps = true /\ forallb clean path_comps = true
    /\ root_path_of w root = (slashes k ++ join_slash root_comps)%string
    /\ candidate w path root = (slashes k' ++ join_slash path_comps)%string.
Proof.
  intros Hcwd.
  destruct (Resolver.root_path_absolute w root Hcwd) as (x & Habs & Hroot).
  destruct (normpath_absolute x Habs) as (k & root_comps & Hk & Hr & Hx).
  unfold candidate. rewrite Hroot, Hx.
  set (rel := lstrip_slash _).
  assert (Hrel : startswith rel "/" = false) by apply lstrip_slash_relative.
  assert (Hjoin : isabs (join (slashes k ++ join_slash root_comps) rel) = true).
  { unfold join. rewrite Hrel.
    destruct (_ || _); apply Resolver.isabs_append; now apply isabs_normal. }
  destruct (normpath_absolute _ Hjoin) as (k' & path_comps & Hk' & Hp & Hc).
  exists k, root_comps, k', path_comps. rewrite Hc. auto 10.
Qed.

(** X2. Under an absolute working directory, a path [serve_file] calls
    [open] on has the components of the root path, in order, up to the
    last one, and in the place of the last one a component that begins
    with it: the path is the root, or under the root, or an entry next
    to the root whose name begins with the root's name (a file such as
    [/srv/www.tar.gz] for the root [/srv/www]), or under such an entry. *)
Theorem opened_file_is_confined :
  forall (w : world) (sock : socket) (path root p : string) (ok : bool),
  isabs (getcwd w) = true ->
  In (EvOpen p ok) (events (serve_file w sock path root)) ->
  confined (components (root_path_of w root)) (components p) = true.
Proof.
  intros w sock path root p ok Hcwd Hin.
  destruct (Resolver.serve_file_opens_candidate w sock path root p ok Hin)
    as [-> Hs].
  destruct (root_and_candidate_normal w path root Hcwd)
    as (k & rc & k' & pc & Hk & Hk' & Hr & Hp & Hroot & Hcand).
  rewrite Hroot, Hcand in *. rewrite !components_normal by assumption.
  now apply (startswith_normal_confined k k').
Qed.

Lemma not_root_path j comps :
  comps <> [] -> forallb clean comps = true ->
  String.eqb (slashes j ++ join_slash comps) "/" = false.
Proof.
  intros Hne Hall. apply String.eqb_neq.
  destruct (join_slash comps) as [|x t] eqn:Hj.
  - now apply join_slash_not_empty in Hj.
  - apply head_not_slash in Hj; [|assumption].
    destruct j as [|[|j]]; cbn; intros H; injection H; intros; try discriminate.
    now apply Hj.
Qed.

(** X3. Under an absolute working directory, a request path made of
    plain names (no empty name, no ["."], no [".."]), with any number of
    leading slashes, is never refused by the check: its candidate is the
    root path joined with the names, it is under the root, and
    [serve_file] starts by calling [open] on it. *)
Theorem plain_path_resolves_under_root :
  forall (w : world) (sock : socket) (root : string) (j : nat)
         (comps : list string),
  isabs (getcwd w) = true ->
  comps <> [] ->
  forallb clean comps = true ->
  candidate w (slashes j ++ join_slash comps) root
    = join (root_path_of w root) (join_slash comps)
  /\ startswith (candidate w (slashes j ++ join_slash comps) root)
                (root_path_of w root) = true
  /\ inside (root_path_of w root)
            (candidate w (slashes j ++ join_slash comps) root) = true
  /\ exists ok t,
       events (serve_file w sock (slashes j ++ join_slash comps) root)
       = EvOpen (join (root_path_of w root) (join_slash comps)) ok :: t.
Proof.
  intros w sock root j comps Hcwd Hne Hall.
  destruct (Resolver.root_path_absolute w root Hcwd) as (x & Habs & Hroot).
  destruct (normpath_absolute x Habs) as (k & rc & Hk & Hr & Hx).
  assert (Hall' : forallb clean (rc ++ comps) = true)
    by now rewrite forallb_app, Hr, Hall.
  assert (Hcand : candidate w (slashes j ++ join_slash comps) root
                  = join (root_path_of w root) (join_slash comps)).
  { unfold candidate. rewrite not_root_path by assumption.
    rewrite lstrip_slash_slashes by now apply join_slash_head.
    rewrite Hroot, Hx, join_normal_path by assumption.
    now apply normpath_normal. }
  assert (Hstart : startswith (join (root_path_of w root) (join_slash comps))
                              (root_path_of w root) = true).
  { rewrite Hroot, Hx, join_normal_path by assumption.
    destruct rc as [|c rest].
    - cbn [join_slash app]. rewrite append_nil_r. apply startswith_append.
    - rewrite join_slash_app by (auto; discriminate).
      rewrite <- append_assoc. apply startswith_append. }
  split; [exact Hcand|]. rewrite Hcand. split; [exact Hstart|]. split.
  - unfold inside. rewrite Hroot, Hx, join_normal_path by assumption.
    rewrite !components_normal by assumption. apply list_prefix_app.
  - unfold serve_file. rewrite Hcand, Hstart. cbn [negb].
    unfold with_open.
    destruct (open_rb w _) as [data|e].
    + unfold_eff. cbn [app].
      destruct (Response_send w _ sock) as [e|].
      * destruct (is_FileNotFoundError e); eauto.
      * eauto.
    + unfold try_except. destruct (is_FileNotFoundError e).
      * unfold send. cbn. eauto.
      * unfold events. cbn [fst]. eauto.
Qed.

End Sandbox.

(* ===================================================================== *)
(** ** One connection, from the parse to the close *)
(* ===================================================================== *)

Module Connection.
Import Str PosixPath Eff Server TraceFacts HandlerFacts Site.
Local Open Scope eff_scope.

(** *** Traces of sequenced computations *)

Lemma events_bind_Ok {A B} (c : M event A) (k : A -> M event B) a :
  outcome c = Ok a ->
  events (bind c k) = events c ++ events (k a)
  /\ outcome (bind c k) = outcome (k a).
Proof.
  destruct c as [t r]. unfold outcome, events, bind. cbn [snd fst].
  intros ->. now destruct (k a).
Qed.

Lemma events_bind_Raise {A B} (c : M event A) (k : A -> M event B) e :
  outcome c = Raise e ->
  events (bind c k) = events c /\ outcome (bind c k) = Raise e.
Proof.
  destruct c as [t r]. unfold outcome, events, bind. cbn [snd fst].
  now intros ->.
Qed.

Lemma all_bind {A B} q (c : M event A) (k : A -> M event B) :
  forallb q (events c) = true ->
  (forall a, forallb q (events (k a)) = true) ->
  forallb q (events (bind c k)) = true.
Proof.
  intros Hc Hk. destruct (outcome c) as [a|e] eqn:Ho.
  - destruct (events_bind_Ok c k a Ho) as [-> _].
    now rewrite forallb_app, Hc, Hk.
  - now destruct (events_bind_Raise c k e Ho) as [-> _].
Qed.

Lemma count_app p t1 t2 : count p (t1 ++ t2) = count p t1 + count p t2.
Proof. unfold count. now rewrite filter_app, length_app. Qed.

Lemma none_count p t : none p t = true -> count p t = 0.
Proof.
  unfold none, count. induction t as [|ev t IH]; auto. cbn.
  destruct (p ev); [discriminate|]. exact IH.
Qed.

Lemma none_not_In p t ev : none p t = true -> In ev t -> p ev = false.
Proof.
  unfold none. rewrite forallb_forall. intros H Hin.
  apply H in Hin. now destruct (p ev).
Qed.

Lemma all_none q p t :
  (forall ev, q ev = true -> p ev = false) ->
  forallb q t = true -> none p t = true.
Proof.
  intros Hqp. unfold none. rewrite !forallb_forall. intros H ev Hin.
  now rewrite (Hqp ev (H ev Hin)).
Qed.

Lemma drain_body_no_send_all req :
  forallb (fun ev => negb (is_send ev)) (events (drain_body req)) = true.
Proof.
  rewrite drain_body_run. destruct (Z.eqb _ 0); auto.
  now destruct (body req _).
Qed.

(** *** Everything happens on the connection's socket *)

Section OfConnection.
Variable w : world.
Variable sock : socket.

Lemma serve_file_of_connection path root :
  forallb (of_connection sock) (events (serve_file w sock path root)) = true.
Proof.
  unfold serve_file.
  generalize (candidate w path root) (root_path_of w root). intros c r.
  generalize (content_type_of w c). intros ct.
  unfold_eff. split_cases; cbn; now rewrite ?Nat.eqb_refl.
Qed.

Lemma handle_request_of_connection req :
  forallb (of_connection sock) (events (handle_request w sock req)) = true.
Proof.
  unfold handle_request.
  apply all_bind; [|intros _; apply all_bind; [|intros _]].
  - rewrite interim_run. destruct (expects_continue req); cbn; auto.
    now rewrite Nat.eqb_refl.
  - rewrite drain_body_run. destruct (Z.eqb _ 0); auto.
    now destruct (body req _).
  - unfold respond. destruct (negb _).
    + cbn. now rewrite Nat.eqb_refl.
    + apply serve_file_of_connection.
Qed.

Lemma handle_client_of_connection addr :
  forallb (of_connection sock) (events (handle_client w sock addr)) = true.
Proof.
  rewrite handle_client_run.
  assert (Hb : forallb (of_connection sock) (events (try_block w sock)) = true).
  { rewrite try_block_run. destruct (Request_from_socket w sock) as [req|e].
    - unfold events at 1. cbn [fst app forallb of_connection].
      rewrite Nat.eqb_refl. apply handle_request_of_connection.
    - cbn. now rewrite Nat.eqb_refl. }
  destruct (outcome (try_block w sock)) as [[]|e]; unfold events at 1;
    cbn [fst]; rewrite !forallb_app, Hb; cbn; now rewrite !Nat.eqb_refl.
Qed.

End OfConnection.

(** X5. Whatever the client sends and however the calls end,
    [handle_client] reads from, writes to and closes no socket but the
    client's, and does not call [task_done]. *)
Theorem handle_client_stays_on_its_socket :
  forall (w : world) (sock : socket) (addr : address) (ev : event),
  In ev (events (handle_client w sock addr)) ->
  ev <> EvTaskDone
  /\ (forall s, ev = EvParse s \/ ev = EvCloseSock s
                \/ (exists res, ev = EvSend s res) -> s = sock).
Proof.
  intros w sock addr ev Hin.
  pose proof (handle_client_of_connection w sock addr) as Hall.
  rewrite forallb_forall in Hall. specialize (Hall ev Hin).
  split.
  - intros ->. discriminate.
  - intros s [-> | [-> | [res ->]]]; cbn in Hall; now apply Nat.eqb_eq in Hall.
Qed.

(** *** One final response *)

Section OneResponse.
Variable w : world.
Variable sock : socket.
Hypothesis Hsend : forall res, Response_send w res sock = None.

(** A computation that sent one final response if it returned and none
    if it raised. *)
Let answers_once {A} (c : M event A) : Prop :=
  count is_final (events c)
  = match outcome c with
    | Ok _ => 1
    | Raise _ => 0
    end.

Lemma answers_once_after {A B} (c : M event A) (k : A -> M event B) :
  count is_final (events c) = 0 ->
  (forall a, answers_once (k a)) ->
  answers_once (bind c k).
Proof.
  unfold answers_once. intros Hc Hk.
  destruct (outcome c) as [a|e] eqn:Ho.
  - destruct (events_bind_Ok c k a Ho) as [-> ->].
    now rewrite count_app, Hc, Hk.
  - destruct (events_bind_Raise c k e Ho) as [-> ->]. exact Hc.
Qed.

Lemma serve_file_answers_once path root :
  answers_once (serve_file w sock path root).
Proof.
  unfold answers_once, serve_file.
  generalize (candidate w path root) (root_path_of w root). intros c r.
  generalize (content_type_of w c). intros ct.
  unfold_eff. split_cases; rewrite ?Hsend in *; try discriminate; reflexivity.
Qed.

Lemma handle_request_answers_once req :
  answers_once (handle_request w sock req).
Proof.
  unfold handle_request.
  apply answers_once_after; [|intros _; apply answers_once_after; [|intros _]].
  - rewrite interim_run. now destruct (expects_continue req).
  - apply none_count.
    apply all_none with (q := fun ev => negb (is_send ev));
      [|apply (drain_body_no_send_all req)].
    intros ev Hev. unfold is_final. apply negb_true_iff in Hev.
    now rewrite Hev.
  - unfold respond. destruct (negb _).
    + unfold answers_once, send, send_result. now rewrite Hsend.
    + apply serve_file_answers_once.
Qed.

Lemma try_block_answers_once : answers_once (try_block w sock).
Proof.
  unfold try_block. apply answers_once_after; [reflexivity|].
  apply handle_request_answers_once.
Qed.

End OneResponse.

(** With log lines that are written: when every write to the client's
    socket succeeds, [handle_client] sends exactly one final response
    (one whose status is not 100), whatever the request. *)
Theorem exactly_one_final_response :
  forall (w : world) (sock : socket) (addr : address),
  (forall res, Response_send w res sock = None) ->
  count is_final (events (handle_client w sock addr)) = 1.
Proof.
  intros w sock addr Hsend.
  pose proof (try_block_answers_once w sock Hsend) as Hb. cbv beta in Hb.
  rewrite handle_client_run. revert Hb.
  destruct (outcome (try_block w sock)) as [[]|e]; intros Hb;
    unfold events at 1; cbn [fst]; rewrite !count_app, Hb;
    unfold on_error, send, send_result; rewrite ?Hsend; reflexivity.
Qed.

(** *** Where an event of a sequence comes from *)

Lemma In_bind_inv {A B} (c : M event A) (k : A -> M event B) ev :
  In ev (events (bind c k)) ->
  In ev (events c) \/ exists a, outcome c = Ok a /\ In ev (events (k a)).
Proof.
  destruct (outcome c) as [a|e] eqn:Ho.
  - destruct (events_bind_Ok c k a Ho) as [-> _]. rewrite in_app_iff.
    intros [H|H]; eauto.
  - destruct (events_bind_Raise c k e Ho) as [-> _]. auto.
Qed.

Lemma In_bind_l {A B} (c : M event A) (k : A -> M event B) ev :
  In ev (events c) -> In ev (events (bind c k)).
Proof.
  intros Hin. destruct (outcome c) as [a|e] eqn:Ho.
  - destruct (events_bind_Ok c k a Ho) as [-> _]. rewrite in_app_iff. auto.
  - now destruct (events_bind_Raise c k e Ho) as [-> _].
Qed.

Lemma In_bind_r {A B} (c : M event A) (k : A -> M event B) a ev :
  outcome c = Ok a -> In ev (events (k a)) -> In ev (events (bind c k)).
Proof.
  intros Ho Hin. destruct (events_bind_Ok c k a Ho) as [-> _].
  rewrite in_app_iff. auto.
Qed.

Lemma count_bind_le {A B} p (c : M event A) (k : A -> M event B) n :
  count p (events c) = 0 ->
  (forall a, count p (events (k a)) <= n) ->
  count p (events (bind c k)) <= n.
Proof.
  intros Hc Hk. destruct (outcome c) as [a|e] eqn:Ho.
  - destruct (events_bind_Ok c k a Ho) as [-> _].
    rewrite count_app, Hc. apply Hk.
  - destruct (events_bind_Raise c k e Ho) as [-> _]. rewrite Hc.
    apply Nat.le_0_l.
Qed.

Lemma none_weaken (p p' : event -> bool) t :
  (forall ev, p' ev = true -> p ev = true) ->
  none p t = true -> none p' t = true.
Proof.
  intros Hpp. unfold none. rewrite !forallb_forall. intros H ev Hin.
  specialize (H ev Hin). destruct (p' ev) eqn:E; auto.
  now rewrite (Hpp ev E) in H.
Qed.

Lemma is_open_file_access ev : is_open ev = true -> is_file_access ev = true.
Proof. now destruct ev. Qed.

(** An event of [handle_client] that is neither a log line nor on the
    socket is an event of [handle_request] on the parsed request. *)
Lemma handle_client_inner w sock addr ev :
  In ev (events (handle_client w sock addr)) ->
  of_inner ev = true ->
  exists req, Request_from_socket w sock = Ok req
              /\ In ev (events (handle_request w sock req)).
Proof.
  rewrite handle_client_run, try_block_run.
  destruct (Request_from_socket w sock) as [req|e].
  - intros Hin Hev. exists req. split; [reflexivity|].
    unfold outcome at 1 in Hin. cbn [snd] in Hin.
    destruct (outcome (handle_request w sock req)) as [[]|e];
      unfold events at 1 2 in Hin; cbn [fst] in Hin;
      rewrite !in_app_iff in Hin; cbn [In] in Hin;
      repeat destruct Hin as [Hin|Hin]; subst; try discriminate;
      try contradiction; auto.
  - cbn. intros Hin Hev.
    repeat destruct Hin as [Hin|Hin]; subst; try discriminate;
      contradiction.
Qed.

Lemma handle_client_outer w sock addr req ev :
  Request_from_socket w sock = Ok req ->
  In ev (events (handle_request w sock req)) ->
  In ev (events (handle_client w sock addr)).
Proof.
  intros Hparse Hin. rewrite (handle_client_parsed w sock addr req Hparse).
  destruct (outcome (handle_request w sock req)) as [[]|e];
    unfold events at 1; cbn [fst]; rewrite !in_app_iff; auto.
Qed.

Lemma count_handle_client w sock addr p :
  (forall m, p (EvPrint m) = false) ->
  (forall s, p (EvParse s) = false) ->
  (forall s res, p (EvSend s res) = false) ->
  (forall s, p (EvCloseSock s) = false) ->
  count p (events (handle_client w sock addr))
  = match Request_from_socket w sock with
    | Ok req => count p (events (handle_request w sock req))
    | Raise _ => 0
    end.
Proof.
  intros Hprint Hparse Hsnd Hclose.
  rewrite handle_client_run, try_block_run.
  destruct (Request_from_socket w sock) as [req|e].
  - unfold outcome at 1. cbn [snd].
    destruct (outcome (handle_request w sock req)) as [[]|e];
      unfold events at 1 2; cbn [fst]; rewrite !count_app;
      unfold count; cbn; rewrite ?Hprint, ?Hparse, ?Hsnd, ?Hclose; cbn;
      fold (count p (events (handle_request w sock req))); lia.
  - unfold count. cbn. now rewrite ?Hprint, ?Hparse, ?Hsnd, ?Hclose.
Qed.

(** *** Files *)

Lemma respond_opens_candidate w sock req p ok :
  In (EvOpen p ok) (events (respond w sock req)) ->
  method req = "GET"
  /\ p = candidate w (path req) "www"
  /\ startswith p (root_path_of w "www") = true.
Proof.
  unfold respond. destruct (String.eqb_spec (method req) "GET") as [Hm|Hm].
  - cbn [negb]. intros Hin.
    destruct (Resolver.serve_file_opens_candidate _ _ _ _ _ _ Hin) as [-> Hs].
    auto.
  - cbn. intros [H|[]]. discriminate.
Qed.

(** X6. [handle_client] calls [open] at most once, and only for a request
    that was parsed, whose method is GET and whose interim response and
    body read did not raise; the file is the candidate of the request
    path under the root ["www"], and it starts with the root path. *)
Theorem file_is_opened_only_for_get :
  forall (w : world) (sock : socket) (addr : address),
  count is_open (events (handle_client w sock addr)) <= 1
  /\ (forall p ok,
        In (EvOpen p ok) (events (handle_client w sock addr)) ->
        exists req,
          Request_from_socket w sock = Ok req
          /\ method req = "GET"
          /\ outcome (interim w sock req ;; drain_body req) = Ok tt
          /\ p = candidate w (path req) "www"
          /\ startswith p (root_path_of w "www") = true).
Proof.
  intros w sock addr. split.
  - rewrite count_handle_client by reflexivity.
    destruct (Request_from_socket w sock) as [req|e]; [|auto].
    unfold handle_request.
    apply count_bind_le; [|intros _; apply count_bind_le; [|intros _]].
    + apply none_count, (none_weaken is_file_access);
        [apply is_open_file_access | apply interim_no_file].
    + apply none_count, (none_weaken is_file_access);
        [apply is_open_file_access | apply drain_body_no_file].
    + unfold respond. destruct (negb _); [cbn; auto|].
      apply Sandbox.count_open_le_1.
  - intros p ok Hin.
    destruct (handle_client_inner w sock addr _ Hin eq_refl)
      as (req & Hparse & Hreq).
    exists req. split; [exact Hparse|].
    unfold handle_request in Hreq.
    apply In_bind_inv in Hreq as [Hi | ([] & Hio & Hreq)].
    { now apply (none_not_In _ _ _ (interim_no_file w sock req)) in Hi. }
    apply In_bind_inv in Hreq as [Hd | ([] & Hdo & Hreq)].
    { now apply (none_not_In _ _ _ (drain_body_no_file req)) in Hd. }
    destruct (respond_opens_candidate w sock req p ok Hreq) as (Hm & Hp & Hs).
    repeat split; auto.
    destruct (events_bind_Ok (interim w sock req) (fun _ => drain_body req)
                tt Hio) as [_ ->].
    exact Hdo.
Qed.

(** *** No file is left open *)

Lemma open_files_app t1 : forall t2 acc,
  open_files (t1 ++ t2) acc = open_files t2 (open_files t1 acc).
Proof.
  induction t1 as [|ev t1 IH]; intros t2 acc; auto.
  destruct ev as [| | | |p [|]| | |]; cbn [app open_files]; apply IH.
Qed.

Lemma open_files_quiet t : forall acc,
  none is_file_access t = true -> open_files t acc = acc.
Proof.
  induction t as [|ev t IH]; intros acc Hnone; auto.
  unfold none in Hnone. cbn [forallb] in Hnone.
  apply andb_true_iff in Hnone as [Hev Ht].
  destruct ev as [| | | |p [|]| | |]; try discriminate;
    cbn [open_files]; now apply IH.
Qed.

Lemma closed_after_quiet {A B} (c : M event A) (k : A -> M event B) :
  none is_file_access (events c) = true ->
  (forall a, open_files (events (k a)) [] = []) ->
  open_files (events (bind c k)) [] = [].
Proof.
  intros Hc Hk. destruct (outcome c) as [a|e] eqn:Ho.
  - destruct (events_bind_Ok c k a Ho) as [-> _].
    rewrite open_files_app, (open_files_quiet (events c)) by assumption.
    apply Hk.
  - destruct (events_bind_Raise c k e Ho) as [-> _].
    now apply open_files_quiet.
Qed.

Lemma handle_client_closes_files w sock addr :
  open_files (events (handle_client w sock addr)) [] = [].
Proof.
  assert (Hb : open_files (events (try_block w sock)) [] = []).
  { unfold try_block, handle_request.
    apply closed_after_quiet; [reflexivity|intros req].
    apply closed_after_quiet; [apply interim_no_file|intros _].
    apply closed_after_quiet; [apply drain_body_no_file|intros _].
    unfold respond. destruct (negb _); [reflexivity|].
    apply serve_file_closes_files. }
  rewrite handle_client_run.
  destruct (outcome (try_block w sock)) as [[]|e]; unfold events at 1;
    cbn [fst]; rewrite !open_files_app; cbn [open_files]; rewrite Hb;
    reflexivity.
Qed.

(** X7. No file is left open: when [handle_client] is left, and at any
    point between two turns of the loop of [run], every file that was
    opened has been closed, whatever the requests and the failures. *)
Theorem no_file_is_left_open :
  forall (w : world) (self : HTTPWorker) (sched : list tick),
  (forall sock addr, open_files (events (handle_client w sock addr)) [] = [])
  /\ open_files (fst (run w self sched)) [] = [].
Proof.
  intros w self sched. split; [intros; apply handle_client_closes_files|].
  unfold run. generalize {| running := true |}. clear self.
  induction sched as [|[got stop_called] rest IH]; intros self.
  - cbn. now destruct (running self).
  - destruct (running self) eqn:Hrun.
    + rewrite Worker.run_loop_cons by assumption. cbn [fst].
      rewrite open_files_app.
      assert (Hit : open_files (events (iteration w got)) [] = []).
      { destruct got as [[sock addr]|]; [|reflexivity].
        rewrite Worker.iteration_run. unfold events at 1. cbn [fst].
        rewrite !open_files_app, handle_client_closes_files.
        now destruct (outcome (handle_client w sock addr)). }
      rewrite Hit. apply IH.
    + cbn. now rewrite Hrun.
Qed.

(** *** The body *)

Lemma respond_no_body_read w sock req :
  none is_body_read (events (respond w sock req)) = true.
Proof.
  unfold respond. destruct (negb _); [reflexivity|].
  unfold serve_file.
  generalize (candidate w (path req) "www") (root_path_of w "www").
  intros c r. generalize (content_type_of w c). intros ct.
  unfold_eff. split_cases; reflexivity.
Qed.

Lemma interim_no_body_read w sock req :
  none is_body_read (events (interim w sock req)) = true.
Proof. rewrite interim_run. now destruct (expects_continue req). Qed.

Lemma count_body_read_drain req :
  count is_body_read (events (drain_body req)) <= 1.
Proof.
  rewrite drain_body_run. destruct (Z.eqb _ 0); [cbn; auto|].
  destruct (body req _); cbn; auto.
Qed.

(** X8. [handle_client] calls [read] on the body at most once. It does so
    exactly when the request was parsed, the interim step did not raise
    and the declared length is not zero, and it asks for the declared
    length; the method plays no part. *)
Theorem body_is_read_whatever_the_method :
  forall (w : world) (sock : socket) (addr : address) (n : Z),
  count is_body_read (events (handle_client w sock addr)) <= 1
  /\ (In (EvBodyRead n) (events (handle_client w sock addr))
      <-> exists req,
            Request_from_socket w sock = Ok req
            /\ outcome (interim w sock req) = Ok tt
            /\ n = content_len req
            /\ n <> 0%Z).
Proof.
  intros w sock addr n. split; [|split].
  - rewrite count_handle_client by reflexivity.
    destruct (Request_from_socket w sock) as [req|e]; [|auto].
    unfold handle_request.
    apply count_bind_le; [apply none_count, interim_no_body_read|intros _].
    destruct (outcome (drain_body req)) as [[]|e] eqn:Ho.
    + destruct (events_bind_Ok (drain_body req)
                  (fun _ => respond w sock req) tt Ho) as [-> _].
      rewrite count_app, (none_count _ _ (respond_no_body_read w sock req)).
      rewrite Nat.add_0_r. apply count_body_read_drain.
    + destruct (events_bind_Raise (drain_body req)
                  (fun _ => respond w sock req) e Ho) as [-> _].
      apply count_body_read_drain.
  - intros Hin.
    destruct (handle_client_inner w sock addr _ Hin eq_refl)
      as (req & Hparse & Hreq).
    exists req. split; [exact Hparse|].
    unfold handle_request in Hreq.
    apply In_bind_inv in Hreq as [Hi | ([] & Hio & Hreq)].
    { now apply (none_not_In _ _ _ (interim_no_body_read w sock req)) in Hi. }
    split; [exact Hio|].
    apply In_bind_inv in Hreq as [Hd | ([] & Hdo & Hreq)].
    + now apply BodyLength.drain_body_reads.
    + now apply (none_not_In _ _ _ (respond_no_body_read w sock req)) in Hreq.
  - intros (req & Hparse & Hio & Hn & Hnz).
    apply (handle_client_outer w sock addr req _ Hparse).
    unfold handle_request. apply (In_bind_r _ _ tt); [exact Hio|].
    apply In_bind_l. apply BodyLength.drain_body_reads. auto.
Qed.

End Connection.

(* ===================================================================== *)
(** ** The worker, connection after connection *)
(* ===================================================================== *)

Module WorkerLoop.
Import Str PosixPath Eff Server TraceFacts HandlerFacts Connection.

Lemma closed_sockets_app t1 t2 :
  closed_sockets (t1 ++ t2) = closed_sockets t1 ++ closed_sockets t2.
Proof.
  induction t1 as [|ev t1 IH]; auto.
  destruct ev; cbn [app closed_sockets]; rewrite IH; reflexivity.
Qed.

Lemma closed_sockets_none t :
  none is_close_sock t = true -> closed_sockets t = [].
Proof.
  induction t as [|ev t IH]; auto. unfold none. cbn [forallb].
  intros H. apply andb_true_iff in H as [Hev Ht].
  destruct ev; try discriminate; cbn [closed_sockets]; now apply IH.
Qed.

Section Loop.
Variable w : world.

Lemma handle_client_closes_once sock addr :
  closed_sockets (events (handle_client w sock addr)) = [sock].
Proof.
  rewrite handle_client_run.
  pose proof (closed_sockets_none _ (try_block_no_close w sock)) as Hb.
  destruct (outcome (try_block w sock)) as [[]|e]; unfold events at 1;
    cbn [fst]; rewrite !closed_sockets_app, Hb; reflexivity.
Qed.

Lemma handle_client_no_task_done sock addr :
  count is_task_done (events (handle_client w sock addr)) = 0.
Proof.
  apply none_count.
  apply all_none with (q := of_connection sock);
    [|apply handle_client_of_connection].
  now intros [].
Qed.

Lemma iteration_closes got :
  closed_sockets (events (iteration w got))
  = map fst match got with Some c => [c] | None => [] end
  /\ count is_task_done (events (iteration w got))
     = length match got with Some c => [c] | None => [] end.
Proof.
  destruct got as [[sock addr]|]; [|split; reflexivity].
  rewrite Worker.iteration_run. unfold events at 1 3. cbn [fst].
  rewrite !closed_sockets_app, !count_app.
  rewrite handle_client_closes_once, handle_client_no_task_done.
  now destruct (outcome (handle_client w sock addr)).
Qed.

Lemma run_loop_stopped self sched :
  running self = false -> run_loop w self sched = ([], Returned).
Proof. intros H. destruct sched as [|[]]; cbn; now rewrite H. Qed.

Lemma run_loop_served sched : forall self,
  running self = true ->
  closed_sockets (fst (run_loop w self sched)) = map fst (served sched)
  /\ count is_task_done (fst (run_loop w self sched))
     = length (served sched).
Proof.
  induction sched as [|[got stop_called] rest IH]; intros self Hrun.
  - cbn. now rewrite Hrun.
  - rewrite Worker.run_loop_cons by assumption. cbn [fst served].
    rewrite closed_sockets_app, count_app, map_app, length_app.
    destruct (iteration_closes got) as [-> ->].
    destruct stop_called.
    + rewrite run_loop_stopped by reflexivity. split; reflexivity.
    + destruct (IH self Hrun) as [-> ->]. split; reflexivity.
Qed.


End Loop.

(** With log lines that are written: under every schedule, [run] closes
    the socket of each connection it took from the queue, once and in the
    order taken, and it calls [task_done] as many times as it took
    connections; a turn in which the queue was empty adds nothing. *)
Theorem every_connection_is_closed_and_done :
  forall (w : world) (self : HTTPWorker) (sched : list tick),
  closed_sockets (fst (run w self sched)) = map fst (served sched)
  /\ count is_task_done (fst (run w self sched)) = length (served sched).
Proof. intros w self sched. now apply run_loop_served. Qed.


End WorkerLoop.

(* ===================================================================== *)
(** ** The accept loop up to and after the interrupt *)
(* ===================================================================== *)

Module Shutdown.
Import Eff Server AcceptLoop.

Lemma in_order_start srv :
  queue (connection_queue srv) = [] -> in_order (start_state srv).
Proof.
  intros Hq. exists []. unfold in_flight, waiting. cbn. rewrite Hq.
  repeat split; auto.
Qed.

Lemma in_order_step s a : in_order s -> in_order (step s a).
Proof.
  intros (lost & Hlen & Hacc & Hserv & Hstop).
  assert (Hs : in_order s) by (exists lost; auto).
  destruct a as [c| | |]; cbn [step].
  - (* Accept *)
    destruct (serving s) eqn:Es; [|unchanged].
    destruct (pending s) as [c'|] eqn:Ep; [unchanged|].
    exists []. rewrite (Hserv eq_refl) in Hacc.
    unfold in_flight, waiting in *. record_simpl. rewrite Ep in Hacc.
    repeat split; cbn; auto; try discriminate.
    rewrite Hacc, !app_nil_r. now rewrite <- app_assoc.
  - (* Put *)
    destruct (serving s) eqn:Es; [|unchanged].
    destruct (pending s) as [c|] eqn:Ep; [|unchanged].
    unfold put. destruct (full _); [unchanged|].
    exists []. rewrite (Hserv eq_refl) in Hacc.
    unfold in_flight, waiting in *. record_simpl. rewrite Ep in Hacc.
    repeat split; cbn; auto.
    now rewrite Hacc, !app_nil_r.
  - (* WorkerGet *)
    unfold get.
    destruct (queue (connection_queue (server s))) as [|c rest] eqn:Eq;
      [unchanged|].
    exists lost. unfold in_flight, waiting in *. record_simpl.
    rewrite Eq in Hacc. repeat split; auto.
    rewrite Hacc. now rewrite <- !app_assoc.
  - (* Interrupt *)
    exists (waiting s ++ lost). unfold in_flight in *.
    unfold waiting at 2. record_simpl.
    repeat split; auto; try discriminate.
    + destruct (serving s) eqn:Es.
      * rewrite (Hserv eq_refl), app_nil_r. unfold waiting.
        destruct (pending s); cbn; auto.
      * unfold waiting. now rewrite (Hstop eq_refl).
    + rewrite Hacc. now rewrite app_nil_r, <- !app_assoc.
Qed.

Lemma in_order_steps acts : forall s, in_order s -> in_order (steps s acts).
Proof.
  induction acts as [|a acts IH]; intros s Hs; cbn; auto.
  apply IH. now apply in_order_step.
Qed.

(** X11. In every state the accept loop and the workers reach, also
    after the interrupt, the connections handed to workers are the first
    accepted ones, in the order accepted; behind them come the queued
    ones and the one [put] is waiting with; and at most one accepted
    connection is lost, the one held when the interrupt came. *)
Theorem connections_are_delivered_in_order :
  forall (h : string) (p worker_count : Z) (acts : list action),
  exists lost,
    length lost <= 1
    /\ accepted (steps (start_state (HTTPServer_init h p worker_count)) acts)
       = delivered (steps (start_state (HTTPServer_init h p worker_count))
                      acts)
         ++ in_flight (steps (start_state (HTTPServer_init h p worker_count))
                         acts)
         ++ lost
    /\ (serving (steps (start_state (HTTPServer_init h p worker_count)) acts)
        = true -> lost = []).
Proof.
  intros h p wc acts.
  destruct (in_order_steps acts (start_state (HTTPServer_init h p wc)))
    as (lost & Hlen & Hacc & Hserv & _).
  - now apply in_order_start.
  - exists lost. auto.
Qed.

Lemma step_after_interrupt s a :
  serving s = false -> pending s = None ->
  serving (step s a) = false /\ pending (step s a) = None
  /\ accepted (step s a) = accepted s
  /\ (delivered (step s a) ++ queue (connection_queue (server (step s a)))
      = delivered s ++ queue (connection_queue (server s)))%list.
Proof.
  intros Hs Hp. destruct a as [c| | |]; cbn [step]; rewrite ?Hs; auto.
  unfold get.
  destruct (queue (connection_queue (server s))) as [|c rest] eqn:Eq.
  - rewrite Eq. auto.
  - record_simpl. rewrite <- app_assoc. auto.
Qed.

(** X12. Once the interrupt has come, nothing is accepted and nothing is
    stored any more: the workers can only take out, in order, what the
    queue holds. *)
Theorem nothing_is_accepted_after_the_interrupt :
  forall (s : accept_state) (acts : list action),
  serving s = false -> pending s = None ->
  serving (steps s acts) = false
  /\ accepted (steps s acts) = accepted s
  /\ (delivered (steps s acts)
        ++ queue (connection_queue (server (steps s acts)))
      = delivered s ++ queue (connection_queue (server s)))%list.
Proof.
  intros s acts. revert s.
  induction acts as [|a acts IH]; intros s Hs Hp; cbn [steps fold_left]; auto.
  destruct (step_after_interrupt s a Hs Hp) as (Hs' & Hp' & Hacc & Hq).
  destruct (IH (step s a) Hs' Hp') as (H1 & H2 & H3).
  unfold steps in *. rewrite H1, H2, H3. auto.
Qed.

Lemma maxsize_steps acts : forall s,
  maxsize (connection_queue (server (steps s acts)))
  = maxsize (connection_queue (server s)).
Proof.
  induction acts as [|a acts IH]; intros s; cbn [steps fold_left]; auto.
  unfold steps in IH. rewrite IH.
  destruct a; cbn [step]; auto.
  - destruct (serving s), (pending s); auto.
  - destruct (serving s), (pending s); auto.
    unfold put. destruct (full _); auto.
  - unfold get. destruct (queue _); auto.
Qed.

(** X13. With a [worker_count] of 0 or less, [start] has no worker to
    launch and the queue has no bound: [put] never waits, in any state
    the accept loop reaches. *)
Theorem no_workers_no_bound :
  forall (h : string) (p worker_count : Z) (acts : list action)
         (c : connection),
  (worker_count <= 0)%Z ->
  workers_of (HTTPServer_init h p worker_count) = []
  /\ put (connection_queue
            (server (steps (start_state (HTTPServer_init h p worker_count))
                       acts))) c
     <> None.
Proof.
  intros h p wc acts c Hwc. split.
  - unfold workers_of. cbn [worker_count HTTPServer_init].
    assert (H : Z.to_nat wc = 0) by lia. now rewrite H.
  - unfold put, full. rewrite maxsize_steps. cbn.
    assert (H : (0 <? wc * 8)%Z = false) by (apply Z.ltb_ge; lia).
    rewrite H. discriminate.
Qed.

End Shutdown.

(* ===================================================================== *)
(** ** [HTTPServer.start] *)
(* ===================================================================== *)

Module Startup.
Import Eff Server.

Lemma forallb_map_false {A} (f : A -> server_event) q l :
  (forall a, q (f a) = false) -> filter q (map f l) = [].
Proof.
  intros H. induction l as [|a l IH]; cbn; auto. now rewrite H.
Qed.

Lemma accept_loop_no_worker_event arr :
  forallb (fun ev => negb (is_worker_event ev)) (events (accept_loop arr))
  = true.
Proof.
  induction arr as [|[c [|]| |e] rest IH]; cbn [accept_loop]; auto.
  destruct (accept_loop rest) as [t r]. exact IH.
Qed.

Lemma listen_and_accept_no_worker_event net self :
  forallb (fun ev => negb (is_worker_event ev))
          (events (listen_and_accept net self)) = true.
Proof.
  unfold listen_and_accept, call, emit, bind.
  pose proof (accept_loop_no_worker_event (arrivals net)) as H.
  destruct (setsockopt_result net), (bind_result net), (listen_result net);
    auto.
  destruct (accept_loop (arrivals net)) as [t r]. exact H.
Qed.

(** [start] in one equation. *)
Lemma start_run net self :
  start net self =
  match socket_result net with
  | Some e => (map SvWorkerStart (workers_of self) ++ [SvSocket], Raise e)
  | None =>
      match outcome (listen_and_accept net self) with
      | Ok Accepting =>
          (map SvWorkerStart (workers_of self) ++ [SvSocket]
             ++ events (listen_and_accept net self), Ok Serving)
      | Ok Broken =>
          (map SvWorkerStart (workers_of self) ++ [SvSocket]
             ++ events (listen_and_accept net self)
             ++ [SvCloseListener]
             ++ map SvWorkerStop (workers_of self)
             ++ map (fun i => SvWorkerJoin i 30) (workers_of self),
           Ok ShutDown)
      | Raise e =>
          (map SvWorkerStart (workers_of self) ++ [SvSocket]
             ++ events (listen_and_accept net self) ++ [SvCloseListener],
           Raise e)
      end
  end.
Proof.
  unfold start, call, bind.
  destruct (socket_result net); auto.
  destruct (listen_and_accept net self) as [t [[|]|e]]; reflexivity.
Qed.

(** X14. When [start] returns, every worker it launched ([worker_count] of
    them, none for a count of 0 or less) has been told to stop and has
    then been joined with a timeout of 30, in the order launched: the
    launches come first, the listening socket is closed before the first
    [stop], and all the [stop]s come before the first [join]. *)
Theorem start_stops_and_joins_every_worker :
  forall (net : network) (self : HTTPServer),
  outcome (start net self) = Ok ShutDown ->
  length (workers_of self) = Z.to_nat (worker_count self)
  /\ exists t,
       events (start net self)
       = map SvWorkerStart (workers_of self)
         ++ t ++ [SvCloseListener]
         ++ map SvWorkerStop (workers_of self)
         ++ map (fun i => SvWorkerJoin i 30) (workers_of self)
       /\ forallb (fun ev => negb (is_worker_event ev)) t = true.
Proof.
  intros net self. rewrite start_run. split.
  - unfold workers_of. apply length_seq.
  - pose proof (listen_and_accept_no_worker_event net self) as Hq.
    destruct (socket_result net); [discriminate|].
    destruct (outcome (listen_and_accept net self)) as [[|]|e];
      try discriminate.
    exists (SvSocket :: events (listen_and_accept net self)).
    split; [reflexivity|exact Hq].
Qed.

(** X15. When [start] ends with an exception (the listening socket could
    not be made, bound or put to listen, or [accept] failed), the workers
    have been launched all the same, and none of them is told to stop or
    joined. *)
Theorem failed_start_leaves_the_workers_running :
  forall (net : network) (self : HTTPServer) (e : exn),
  outcome (start net self) = Raise e ->
  filter is_worker_start (events (start net self))
  = map SvWorkerStart (workers_of self)
  /\ filter is_shutdown (events (start net self)) = [].
Proof.
  intros net self e. rewrite start_run.
  pose proof (listen_and_accept_no_worker_event net self) as Hq.
  assert (Hstart : filter is_worker_start (events (listen_and_accept net self))
                   = []
                   /\ filter is_shutdown (events (listen_and_accept net self))
                      = []).
  { revert Hq. generalize (events (listen_and_accept net self)).
    induction l as [|ev l IH]; auto. cbn [forallb filter].
    intros H. apply andb_true_iff in H as [Hev Hl].
    destruct (IH Hl) as [-> ->]. unfold is_worker_event in Hev.
    apply negb_true_iff, orb_false_iff in Hev as [-> ->]. auto. }
  destruct Hstart as [Hs1 Hs2].
  assert (Hw : filter is_worker_start (map SvWorkerStart (workers_of self))
               = map SvWorkerStart (workers_of self)).
  { induction (workers_of self) as [|i l IH]; cbn; auto. now rewrite IH. }
  destruct (socket_result net) as [e0|].
  - intros _. unfold events. cbn [fst]. rewrite !filter_app, Hw.
    rewrite forallb_map_false by reflexivity. cbn. now rewrite app_nil_r.
  - destruct (outcome (listen_and_accept net self)) as [[|]|e1];
      try discriminate.
    intros _. unfold events at 1 3. cbn [fst].
    rewrite !filter_app, Hw, Hs1, Hs2.
    rewrite forallb_map_false by reflexivity. cbn. now rewrite app_nil_r.
Qed.

End Startup.

(* ===================================================================== *)
(** ** More runs on the concrete site *)
(* ===================================================================== *)

Module OnSiteMore.
Import Str PosixPath Eff Server TraceFacts Site.

Ltac find_event := cbn; repeat (first [left; reflexivity | right]).

(** The file next to the root is where the check confines it. *)
Lemma neighbour_is_confined :
  isabs (getcwd site) = true
  /\ In (EvOpen "/srv/www-private/key.pem" true)
        (events (serve_file site 6 "/../www-private/key.pem" "www"))
  /\ confined (components (root_path_of site "www"))
              (components "/srv/www-private/key.pem") = true.
Proof.
  assert (Hin : In (EvOpen "/srv/www-private/key.pem" true)
                   (events (serve_file site 6 "/../www-private/key.pem"
                              "www"))) by find_event.
  split; [reflexivity|]. split; [exact Hin|].
  exact (Sandbox.opened_file_is_confined site 6 "/../www-private/key.pem"
           "www" "/srv/www-private/key.pem" true eq_refl Hin).
Defined.

(** A path of two names behind three slashes. *)
Lemma plain_path_run :
  isabs (getcwd site) = true
  /\ ["img"; "logo.png"] <> []
  /\ forallb clean ["img"; "logo.png"] = true
  /\ candidate site "///img/logo.png" "www" = "/srv/www/img/logo.png".
Proof.
  assert (Hne : ["img"; "logo.png"] <> []) by discriminate.
  split; [reflexivity|]. split; [exact Hne|]. split; [reflexivity|].
  exact (proj1 (Sandbox.plain_path_resolves_under_root
                  site 0 "www" 3 ["img"; "logo.png"] eq_refl Hne eq_refl)).
Defined.

(** On the site every write succeeds: one final response per client. *)
Lemma one_response_run :
  (forall res, Response_send site res 4 = None)
  /\ count is_final (events (handle_client site 4 peer)) = 1.
Proof.
  assert (Hsend : forall res, Response_send site res 4 = None)
    by (intros res; reflexivity).
  split; [exact Hsend|].
  exact (Connection.exactly_one_final_response site 4 peer Hsend).
Defined.

(** The close of the client's socket is on the client's socket. *)
Lemma own_socket_run :
  In (EvCloseSock 3) (events (handle_client site 3 peer))
  /\ EvCloseSock 3 <> EvTaskDone.
Proof.
  assert (Hin : In (EvCloseSock 3) (events (handle_client site 3 peer)))
    by find_event.
  split; [exact Hin|].
  exact (proj1 (Connection.handle_client_stays_on_its_socket
                  site 3 peer (EvCloseSock 3) Hin)).
Defined.


(** After the interrupt a connection offered to [accept] is not taken. *)
Lemma after_interrupt_run :
  serving (steps (start_state default_server)
             [Accept (0, peer); Put; Interrupt]) = false
  /\ pending (steps (start_state default_server)
                [Accept (0, peer); Put; Interrupt]) = None
  /\ accepted (steps (steps (start_state default_server)
                        [Accept (0, peer); Put; Interrupt])
                 [Accept (3, peer); Put; WorkerGet])
     = [(0, peer)].
Proof.
  split; [reflexivity|]. split; [reflexivity|].
  exact (proj1 (proj2 (Shutdown.nothing_is_accepted_after_the_interrupt
                         (steps (start_state default_server)
                            [Accept (0, peer); Put; Interrupt])
                         [Accept (3, peer); Put; WorkerGet]
                         eq_refl eq_refl))).
Defined.

(** A server built with no worker. *)
Lemma no_worker_run :
  (0 <= 0)%Z
  /\ workers_of (HTTPServer_init "127.0.0.1" 8080 0) = [].
Proof.
  assert (H : (0 <= 0)%Z) by lia.
  split; [exact H|].
  exact (proj1 (Shutdown.no_workers_no_bound "127.0.0.1" 8080%Z 0%Z []
                  (0, peer) H)).
Defined.

(** The default server on a short day: sixteen workers launched, stopped
    and joined. *)
Lemma short_day_run :
  outcome (start short_day default_server) = Ok ShutDown
  /\ length (workers_of default_server) = 16.
Proof.
  split; [reflexivity|].
  exact (proj1 (Startup.start_stops_and_joins_every_worker
                  short_day default_server eq_refl)).
Defined.

(** The default server on a taken port. *)
Lemma port_in_use_run :
  outcome (start port_in_use default_server)
  = Raise (OtherException "Address already in use")
  /\ filter is_shutdown (events (start port_in_use default_server)) = [].
Proof.
  split; [reflexivity|].
  exact (proj2 (Startup.failed_start_leaves_the_workers_running
                  port_in_use default_server
                  (OtherException "Address already in use") eq_refl)).
Defined.

Example confined_cases :
  map (fun p => confined (components "/srv/www") (components p))
      ["/srv/www"; "/srv/www/a/b"; "/srv/www-private/key.pem";
       "/srv/w"; "/srv/other/www"; "/etc/passwd"; "/"]
  = [true; true; true; false; false; false; false].
Proof. reflexivity. Qed.

Example confined_sibling_file :
  confined (components "/srv/www") (components "/srv/www.tar.gz") = true
  /\ inside "/srv/www" "/srv/www.tar.gz" = false.
Proof. split; reflexivity. Qed.

Example served_until_stop :
  served [Tick (Some (0, peer)) false; Tick None false;
          Tick (Some (3, peer)) true; Tick (Some (4, peer)) false]
  = [(0, peer); (3, peer)].
Proof. reflexivity. Qed.

(** Two workers, one client, and an interrupt while [put] waits with a
    second one. *)
Example start_two_workers :
  start {| socket_result := None; setsockopt_result := None;
           bind_result := None; listen_result := None;
           arrivals := [Arrived (0, peer) false; Arrived (3, peer) true;
                        Arrived (4, peer) false] |}
        (HTTPServer_init "127.0.0.1" 8080 2)
  = ([SvWorkerStart 0; SvWorkerStart 1;
      SvSocket; SvSetReuseAddr; SvBind "127.0.0.1" 8080; SvListen 0;
      SvPrint (MsgListening "127.0.0.1" 8080);
      SvAccept (0, peer); SvPut (0, peer) true;
      SvAccept (3, peer); SvPut (3, peer) false;
      SvCloseListener;
      SvWorkerStop 0; SvWorkerStop 1;
      SvWorkerJoin 0 30; SvWorkerJoin 1 30], Ok ShutDown).
Proof. reflexivity. Qed.

Example start_port_in_use :
  start port_in_use (HTTPServer_init "127.0.0.1" 8080 2)
  = ([SvWorkerStart 0; SvWorkerStart 1;
      SvSocket; SvSetReuseAddr; SvBind "127.0.0.1" 8080;
      SvCloseListener],
     Raise (OtherException "Address already in use")).
Proof. reflexivity. Qed.

End OnSiteMore.

(* ===================================================================== *)
(** ** Log lines that cannot be written *)
(* ===================================================================== *)

Module LoggingFacts.
Import Str PosixPath Eff Server TraceFacts HandlerFacts Site.
Local Open Scope eff_scope.

(** *** With a standard output that takes every line *)

Lemma try_except_ext {E A} (c : M E A) catches (h h' : exn -> M E A) :
  (forall e, h e = h' e) -> try_except c catches h = try_except c catches h'.
Proof.
  intros Hh. destruct c as [t [a|e]]; cbn; auto. now rewrite Hh.
Qed.

Lemma bind_ext {E A B} (c : M E A) (k k' : A -> M E B) :
  (forall a, k a = k' a) -> bind c k = bind c k'.
Proof.
  intros Hk. destruct c as [t [a|e]]; cbn; auto. now rewrite Hk.
Qed.

Section Writable.
Variable out : Logging.stdout.
Variable w : world.
Hypothesis Hout : Logging.writable out.

Lemma print_writable m : Logging.print out m = print m.
Proof. unfold Logging.print, call. now rewrite Hout. Qed.

Lemma drain_body_writable req : Logging.drain_body out req = drain_body req.
Proof.
  unfold Logging.drain_body, drain_body.
  destruct (negb _); auto. apply bind_ext. intros data.
  apply print_writable.
Qed.

Lemma handle_request_writable sock req :
  Logging.handle_request out w sock req = handle_request w sock req.
Proof.
  unfold Logging.handle_request, handle_request.
  now rewrite drain_body_writable.
Qed.

Lemma try_block_writable sock :
  Logging.try_block out w sock = try_block w sock.
Proof.
  unfold Logging.try_block, try_block. apply bind_ext. intros req.
  apply handle_request_writable.
Qed.

Lemma on_error_writable sock e :
  Logging.on_error out w sock e = on_error w sock e.
Proof. unfold Logging.on_error, on_error. now rewrite print_writable. Qed.

(** The server of [Logging] on a standard output that takes every line
    is the server of [Server]. *)
Lemma handle_client_writable sock addr :
  Logging.handle_client out w sock addr = handle_client w sock addr.
Proof.
  unfold Logging.handle_client, handle_client.
  rewrite print_writable, try_block_writable.
  now rewrite (try_except_ext _ _ _ _ (on_error_writable sock)).
Qed.

Lemma iteration_writable got :
  Logging.iteration out w got = iteration w got.
Proof.
  destruct got as [[sock addr]|]; auto.
  unfold Logging.iteration, iteration. rewrite handle_client_writable.
  now rewrite (try_except_ext _ _ _ _ (fun e => print_writable _)).
Qed.

Lemma run_loop_writable sched : forall self,
  Logging.run_loop out w self sched = run_loop w self sched.
Proof.
  induction sched as [|[got stop_called] rest IH]; intros self; auto.
  cbn [Logging.run_loop run_loop]. rewrite iteration_writable.
  now rewrite IH.
Qed.

Lemma run_writable self sched :
  Logging.run out w self sched = run w self sched.
Proof. apply run_loop_writable. Qed.

End Writable.

(** *** The first line *)

Section FirstLine.
Variable out : Logging.stdout.
Variable w : world.
Variable sock : socket.
Variable addr : address.

(** When the line that announces the connection cannot be written,
    [handle_client] is left before its [with] block: nothing is parsed,
    nothing is sent and the socket is not closed. *)
Lemma handle_client_unannounced e :
  out (MsgNewConnection addr) = Some e ->
  Logging.handle_client out w sock addr
  = ([EvPrint (MsgNewConnection addr)], Raise e).
Proof.
  intros He. unfold Logging.handle_client, Logging.print, call.
  now rewrite He.
Qed.

Lemma logged_drain_body_no_close req :
  none is_close_sock (events (Logging.drain_body out req)) = true.
Proof.
  unfold Logging.drain_body, Logging.print, call, body_read.
  destruct (negb _); auto.
  destruct (body req _); cbn; auto.
Qed.

Lemma logged_try_block_no_close :
  none is_close_sock (events (Logging.try_block out w sock)) = true.
Proof.
  unfold Logging.try_block, Logging.handle_request.
  apply none_bind; [reflexivity|intros req].
  apply none_bind; [apply interim_no_close|intros _].
  apply none_bind; [apply logged_drain_body_no_close|intros _].
  apply respond_no_close.
Qed.

Lemma logged_on_error_no_close e :
  none is_close_sock (events (Logging.on_error out w sock e)) = true.
Proof.
  unfold Logging.on_error, Logging.print, call, send.
  now destruct (out _).
Qed.

(** When that line is written, the [with] block is entered, and however
    it is left, whatever else cannot be written, the close of the socket
    is the last effect of [handle_client] and the only close. *)
Lemma handle_client_announced :
  out (MsgNewConnection addr) = None ->
  exists t,
    events (Logging.handle_client out w sock addr) = t ++ [EvCloseSock sock]
    /\ none is_close_sock t = true.
Proof.
  intros Hok. unfold Logging.handle_client, Logging.print, call.
  rewrite Hok, try_except_all.
  pose proof logged_try_block_no_close as Hb.
  destruct (outcome (Logging.try_block out w sock)) as [[]|e] eqn:Ho.
  - destruct (Logging.try_block out w sock) as [t r]. cbn in *.
    exists (EvPrint (MsgNewConnection addr) :: t). now split.
  - pose proof (logged_on_error_no_close e) as He.
    destruct (Logging.try_block out w sock) as [t r].
    destruct (Logging.on_error out w sock e) as [t' r']. cbn in *.
    exists (EvPrint (MsgNewConnection addr) :: t ++ t').
    split; [reflexivity|].
    unfold none. cbn [forallb is_close_sock negb andb].
    now rewrite forallb_app, Hb, He.
Qed.

End FirstLine.

(** *** What a failed line costs *)

(** C8 (evaluated at the failing input). The standard output is a pipe
    whose reader is gone: the [print] that announces the connection
    raises before the [with] block is entered, and [handle_client] is
    left without a close of the client socket. *)
Theorem socket_is_left_open_when_the_first_line_fails :
  Logging.handle_client closed_pipe site 0 peer
  = ([EvPrint (MsgNewConnection peer)], Raise BrokenPipeError)
  /\ closed_sockets (events (Logging.handle_client closed_pipe site 0 peer))
     = [].
Proof. split; reflexivity. Qed.

(** C2 (evaluated at the failing inputs). With the standard output gone,
    the exception of the first [print] reaches the loop of [run], whose
    own [print] raises in the [except] clause: the thread ends on its
    first connection and the one behind it is not served.  With a
    standard output that cannot write what a failed parse reports, the
    [print] of the [except] clause of [handle_client] raises and the 404
    is not sent. *)
Theorem failed_log_line_ends_the_worker :
  Logging.run closed_pipe site HTTPWorker_init
    [Tick (Some (9, peer)) false; Tick (Some (0, peer)) false]
  = ([EvPrint (MsgNewConnection peer);
      EvPrint (MsgUnhandledError BrokenPipeError);
      EvTaskDone], Died BrokenPipeError)
  /\ Request_from_socket site 9
     = Raise (OtherException "malformed request line")
  /\ Logging.handle_client ascii_output site 9 peer
     = ([EvPrint (MsgNewConnection peer); EvParse 9;
         EvPrint (MsgFailedToParse (OtherException "malformed request line"));
         EvCloseSock 9],
        Raise (OtherException "UnicodeEncodeError")).
Proof. repeat split. Qed.

(** X4. When every write to the client's socket succeeds and every log
    line is written, [handle_client] sends exactly one final response
    (one whose status is not 100), whether the parse, the read of the
    body or the [open] fail or not. *)
Theorem one_final_response_when_all_is_written :
  forall (out : Logging.stdout) (w : world) (sock : socket) (addr : address),
  (forall res, Response_send w res sock = None) ->
  Logging.writable out ->
  count is_final (events (Logging.handle_client out w sock addr)) = 1.
Proof.
  intros out w sock addr Hsend Hout.
  rewrite handle_client_writable by assumption.
  now apply Connection.exactly_one_final_response.
Qed.

(** X9. When every log line is written, under every schedule [run]
    closes the socket of each connection it took from the queue, once
    and in the order taken, and it calls [task_done] as many times as it
    took connections; a turn in which the queue was empty adds
    nothing. *)
Theorem connections_are_closed_and_done_when_logged :
  forall (out : Logging.stdout) (w : world) (self : HTTPWorker)
         (sched : list tick),
  Logging.writable out ->
  closed_sockets (fst (Logging.run out w self sched)) = map fst (served sched)
  /\ count is_task_done (fst (Logging.run out w self sched))
     = length (served sched).
Proof.
  intros out w self sched Hout.
  rewrite run_writable by assumption.
  apply WorkerLoop.every_connection_is_closed_and_done.
Qed.

(** On a terminal. *)
Lemma terminal_one_response_run :
  (forall res, Response_send site res 4 = None)
  /\ Logging.writable terminal
  /\ count is_final (events (Logging.handle_client terminal site 4 peer)) = 1.
Proof.
  assert (Hsend : forall res, Response_send site res 4 = None)
    by (intros res; reflexivity).
  assert (Hout : Logging.writable terminal) by (intros m; reflexivity).
  split; [exact Hsend|]. split; [exact Hout|].
  exact (one_final_response_when_all_is_written terminal site 4 peer
           Hsend Hout).
Defined.

Lemma terminal_worker_run :
  Logging.writable terminal
  /\ closed_sockets
       (fst (Logging.run terminal site HTTPWorker_init
               [Tick (Some (0, peer)) false; Tick None false;
                Tick (Some (9, peer)) true]))
     = [0; 9].
Proof.
  assert (Hout : Logging.writable terminal) by (intros m; reflexivity).
  split; [exact Hout|].
  exact (proj1 (connections_are_closed_and_done_when_logged
                  terminal site HTTPWorker_init
                  [Tick (Some (0, peer)) false; Tick None false;
                   Tick (Some (9, peer)) true] Hout)).
Defined.

End LoggingFacts.

(* ===================================================================== *)
(** ** Where two statements stop *)
(* ===================================================================== *)

Module Limits.
Import Str PosixPath Eff Server Site.


(** C9 (the claim fails at the interrupt). A server with one worker, so
    a queue of eight: eight connections are stored, the ninth is
    accepted and [put] waits with it; the interrupt comes, and the ninth
    is neither delivered nor in flight any more. *)
Lemma interrupt_drops_the_held_connection :
  maxsize (connection_queue small_server) = 8%Z
  /\ put (connection_queue
            (server (steps (start_state small_server)
                       (removelast rush)))) (client 9) = None
  /\ pending (steps (start_state small_server) (removelast rush))
     = Some (client 9)
  /\ accepted (steps (start_state small_server) rush)
     = map client (seq 1 9)
  /\ delivered (steps (start_state small_server) rush) = []
  /\ in_flight (steps (start_state small_server) rush)
     = map client (seq 1 8)
  /\ ~ In (client 9)
          (delivered (steps (start_state small_server) rush)
           ++ in_flight (steps (start_state small_server) rush)).
Proof.
  assert (Hd : delivered (steps (start_state small_server) rush) = [])
    by (vm_compute; reflexivity).
  assert (Hf : in_flight (steps (start_state small_server) rush)
               = map client (seq 1 8))
    by (vm_compute; reflexivity).
  split; [vm_compute; reflexivity|].
  split; [vm_compute; reflexivity|].
  split; [vm_compute; reflexivity|].
  split; [vm_compute; reflexivity|].
  split; [exact Hd|]. split; [exact Hf|].
  revert Hd Hf.
  generalize (delivered (steps (start_state small_server) rush))
             (in_flight (steps (start_state small_server) rush)).
  intros d f -> ->. unfold client. cbn [app map seq In].
  intros H. repeat destruct H as [H|H]; try discriminate. exact H.
Qed.

End Limits.
